(** * Highlight assembly of [annotationprocessing.js]

    A shallow embedding of the word tokenizer, the offset resolver and the
    highlight assembler of [src/annotationprocessing.js], followed by the
    properties the specification states about them.

    JavaScript strings are sequences of UTF-16 code units.  The separator
    regular expression carries no [u] flag, so its character class ranges
    over code units: the glyph U+1F30C that wraps links contributes its two
    surrogates 0xD83C and 0xDF0C as two separate members of the class. *)

From Stdlib Require Import ZArith NArith String Ascii.
From stdpp Require Import base option list gmap.

Local Open Scope N_scope.

(** ** Strings *)

Definition char := N.
Definition jsstring := list char.

(** An ASCII literal as a JavaScript string. *)
Definition js (s : string) : jsstring :=
  map N_of_ascii (list_ascii_of_string s).

(** The link separator glyph (U+1F30C) and the footnote placeholder glyph
    (U+1F9B6), as surrogate pairs. *)
Definition galaxy : jsstring := [0xD83C; 0xDF0C].
Definition foot : jsstring := [0xD83E; 0xDDB6].

Definition emDash : char := 0x2014.
Definition enDash : char := 0x2013.
Definition hyphen : char := 0x2D.

(** The class [\s] of ECMAScript: WhiteSpace and LineTerminator.
    [String.prototype.trim] strips the same set. *)
Definition isWhiteSpace (c : char) : bool :=
  (9 <=? c) && (c <=? 13)
  || (c =? 0x20) || (c =? 0xA0) || (c =? 0x1680)
  || (0x2000 <=? c) && (c <=? 0x200A)
  || (c =? 0x2028) || (c =? 0x2029) || (c =? 0x202F)
  || (c =? 0x205F) || (c =? 0x3000) || (c =? 0xFEFF).

(** Membership in the class of [SeparatorRegex = /([🌌\s—–-]+)/g]. *)
Definition isSeparatorChar (c : char) : bool :=
  (c =? 0xD83C) || (c =? 0xDF0C) || isWhiteSpace c
  || (c =? emDash) || (c =? enDash) || (c =? hyphen).

Fixpoint takeWhile (f : char -> bool) (s : jsstring) : jsstring :=
  match s with
  | [] => []
  | c :: s' => if f c then c :: takeWhile f s' else []
  end.

Fixpoint dropWhile (f : char -> bool) (s : jsstring) : jsstring :=
  match s with
  | [] => []
  | c :: s' => if f c then dropWhile f s' else s
  end.

(** [s.startsWith(prefix)] *)
Fixpoint startsWith (s prefix : jsstring) {struct prefix} : bool :=
  match prefix, s with
  | [], _ => true
  | a :: prefix', b :: s' => (a =? b) && startsWith s' prefix'
  | _ :: _, [] => false
  end.

(** [s.includes(pat)] *)
Fixpoint includes (s pat : jsstring) : bool :=
  startsWith s pat ||
  match s with
  | [] => false
  | _ :: s' => includes s' pat
  end.

(** [l.join(sep)] *)
Fixpoint join (sep : jsstring) (l : list jsstring) : jsstring :=
  match l with
  | [] => []
  | x :: l' =>
      match l' with
      | [] => x
      | _ :: _ => x ++ sep ++ join sep l'
      end
  end.

(** [l.slice(from, to)] for indices that are natural numbers. *)
Definition slice {A} (from to : nat) (l : list A) : list A :=
  take (to - from) (drop from l).

(** [s.trim()] *)
Definition trim (s : jsstring) : jsstring :=
  rev (dropWhile isWhiteSpace (rev (dropWhile isWhiteSpace s))).

(** [s.replaceAll(pat, '')] for a pattern of two code units [a b]: the
    occurrences are found left to right and do not overlap. *)
Fixpoint removeAll2 (a b : char) (s : jsstring) : jsstring :=
  match s with
  | [] => []
  | x :: t =>
      match t with
      | y :: s' =>
          if (x =? a) && (y =? b) then removeAll2 a b s'
          else x :: removeAll2 a b t
      | [] => [x]
      end
  end.

(** ** The tokenizer: [part.split(SeparatorRegex)]

    Splitting on a regular expression scans the string from the left.  At
    each position the expression is tried as a sticky match; the class is
    under a greedy [+], so a match takes the whole run of separator
    characters that starts there.  The text before the match is pushed,
    then the captured run itself (the capturing group), and scanning resumes
    after the run.  The text after the last match is pushed at the end, also
    when it is empty.  [cur] holds the token being read, last unit first. *)
Fixpoint split_from (inSep : bool) (cur s : jsstring) : list jsstring :=
  match s with
  | [] => if inSep then [rev cur; []] else [rev cur]
  | c :: s' =>
      if isSeparatorChar c then
        if inSep then split_from true (c :: cur) s'
        else rev cur :: split_from true [c] s'
      else
        if inSep then rev cur :: split_from false [c] s'
        else split_from false (c :: cur) s'
  end.

Definition split (s : jsstring) : list jsstring := split_from false [] s.

(** ** The offset resolver *)

(** The values a word offset takes: [h.endOffset] maps the sentinel to
    [Number.POSITIVE_INFINITY], and an absent field yields [NaN] once it
    meets arithmetic or a comparison. *)
Inductive jsnumber :=
  | Finite (z : Z)
  | PosInfinity
  | NaN.

(** [offset < wordOffset] for the counter, a natural number. *)
Definition ltNumber (n : nat) (w : jsnumber) : bool :=
  match w with
  | Finite z => (Z.of_nat n <? z)%Z
  | PosInfinity => true
  | NaN => false
  end.

(** [p.match(SeparatorRegex)?.[0]]: with the [g] flag, [match] lists the
    matches; the first one is the leftmost maximal run of separators. *)
Definition firstMatch (p : jsstring) : option jsstring :=
  match dropWhile (fun c => negb (isSeparatorChar c)) p with
  | [] => None
  | r => Some (takeWhile isSeparatorChar r)
  end.

(** [p.match(SeparatorRegex)?.[0] !== p] *)
Definition notSeparator (p : jsstring) : bool :=
  negb (bool_decide (firstMatch p = Some p)).

(** The local variables of [wordOffsetToIndex]. *)
Record loopState := LoopState {
  offset : nat;
  index : nat;
  inLink : bool
}.

(** One iteration of the body of the [while] loop on the token [p]. *)
Definition loopBody (p : jsstring) (st : loopState) : loopState :=
  let offset1 :=
    if negb (inLink st) && notSeparator p then S (offset st) else offset st in
  let inLink1 := if includes p (js "](") then true else inLink st in
  let inLink2 := if inLink1 && includes p (js ")") then false else inLink1 in
  {| offset := offset1; index := S (index st); inLink := inLink2 |}.

(** The loop, on the tokens from [index] on: it runs while
    [offset < wordOffset && index < wordsAndSeparators.length]. *)
Fixpoint loop (wordOffset : jsnumber) (rest : list jsstring) (st : loopState)
  : loopState :=
  match rest with
  | [] => st
  | p :: rest' =>
      if ltNumber (offset st) wordOffset
      then loop wordOffset rest' (loopBody p st)
      else st
  end.

Definition initialState : loopState :=
  {| offset := 0; index := 0; inLink := false |}.

Definition wordOffsetToIndex (wordsAndSeparators : list jsstring)
    (wordOffset : jsnumber) : nat :=
  index (loop wordOffset wordsAndSeparators initialState).

(** The number of words the resolver counts in a token sequence: the value
    of its counter once an unbounded offset has walked all of it. *)
Definition wordCount (wordsAndSeparators : list jsstring) : nat :=
  offset (loop PosInfinity wordsAndSeparators initialState).

(** [withoutPlaceholders] *)
Definition withoutPlaceholders (md : jsstring) : jsstring :=
  removeAll2 0xD83C 0xDF0C (removeAll2 0xD83E 0xDDB6 md).

(** ** Records of the data model

    A field that may be absent ([undefined]) is an [option]. *)

Module Highlight.
Record t := Make {
  uri : jsstring;
  startOffset : option Z;
  endOffset : option Z
}.
End Highlight.

Module Note.
Record t := Make { content : option jsstring }.
End Note.

Module Tag.
Record t := Make { name : jsstring }.
End Tag.

Module Annotation.
Record t := Make {
  annotationId : option jsstring;
  highlights : option (list Highlight.t);
  uri : option jsstring;
  note : option Note.t;
  tags : option (list Tag.t);
  created : option jsstring;
  lastUpdated : option jsstring
}.
End Annotation.

Module Block.
Record t := Make { markup : jsstring }.
End Block.

Module Content.
Record t := Make {
  content : list Block.t;
  authorName : option jsstring;
  publication : option jsstring;
  headline : option jsstring
}.
End Content.

Module Source.
Record t := Make {
  url : jsstring;
  title : option jsstring;
  author : option jsstring;
  type : option jsstring
}.
End Source.

(** [new Date(v)], kept symbolic. *)
Inductive jsdate := NewDate (v : option jsstring).

Module Record.
Record t := Make {
  id : jsstring;
  created : jsdate;
  updated : jsdate;
  source : option Source.t;
  fullMd : jsstring;
  highlightMd : jsstring;
  noteMd : option jsstring;
  tags : list jsstring;
  sourceLink : option jsstring
}.
End Record.

(** What the [try] block of [assembleHighlights] can throw. *)
Inductive error :=
  | MissingAnnotationId
  | MissingContents (uri : jsstring)
  | TypeError.

Definition result (A : Type) : Type := (error + A)%type.

Definition throw {A} (e : error) : result A := inl e.

#[global] Instance result_ret : MRet result := fun A x => inr x.

#[global] Instance result_bind : MBind result := fun A B f m =>
  match m with
  | inl e => inl e
  | inr x => f x
  end.

(** [l.map((x, i) => f i x)] where [f] may throw: the elements are visited
    from the left and the first exception leaves the loop. *)
Fixpoint imapM {A B} (f : nat -> A -> result B) (i : nat) (l : list A)
  : result (list B) :=
  match l with
  | [] => mret []
  | x :: l' => y ← f i x; k ← imapM f (S i) l'; mret (y :: k)
  end.

(** A string in a boolean position: the empty string is falsy, and so is
    [undefined]. *)
Definition truthy (s : jsstring) : bool :=
  match s with
  | [] => false
  | _ :: _ => true
  end.

Definition truthyOpt (o : option jsstring) : bool :=
  match o with
  | Some s => truthy s
  | None => false
  end.

(** ['...' + v]: an absent value is appended as the text [undefined]. *)
Definition toStr (o : option jsstring) : jsstring :=
  match o with
  | Some s => s
  | None => js "undefined"
  end.

(** ** The source resolver *)

Definition church : option jsstring :=
  Some (js "The Church of Jesus Christ of Latter-day Saints").

Definition knownSources : list Source.t := [
  {| Source.url := js "https://www.churchofjesuschrist.org/study/scriptures/bofm";
     Source.title := Some (js "Book of Mormon");
     Source.author := church;
     Source.type := Some (js "books") |};
  {| Source.url := js "https://www.churchofjesuschrist.org/study/scriptures/nt";
     Source.title := Some (js "New Testament");
     Source.author := church;
     Source.type := Some (js "books") |};
  {| Source.url := js "https://www.churchofjesuschrist.org/study/scriptures/ot";
     Source.title := Some (js "Old Testament");
     Source.author := church;
     Source.type := Some (js "books") |};
  {| Source.url := js "https://www.churchofjesuschrist.org/study/scriptures/dc-testament";
     Source.title := Some (js "Doctrine and Covenants");
     Source.author := church;
     Source.type := Some (js "books") |};
  {| Source.url := js "https://www.churchofjesuschrist.org/study/scriptures/pgp";
     Source.title := Some (js "Pearl of Great Price");
     Source.author := church;
     Source.type := Some (js "books") |}
].

Definition studyRoot : jsstring :=
  js "https://www.churchofjesuschrist.org/study".

Definition uriToUrl (uri : option jsstring) : jsstring :=
  studyRoot ++ toStr uri.

(** [table.find(pred)] *)
Fixpoint find {A} (pred : A -> bool) (table : list A) : option A :=
  match table with
  | [] => None
  | s :: table' => if pred s then Some s else find pred table'
  end.

Definition getSourceInfo (annotation : Annotation.t) (contentObj : Content.t)
  : Source.t :=
  let url := uriToUrl (Annotation.uri annotation) in
  match find (fun s => startsWith url (Source.url s)) knownSources with
  | Some source => source
  | None =>
      let author :=
        if truthyOpt (Content.authorName contentObj)
        then Content.authorName contentObj
        else Content.publication contentObj in
      let title := Content.headline contentObj in
      {| Source.url := url; Source.title := title;
         Source.author := author; Source.type := None |}
  end.

Definition getContentUrisForAnnotation (annotation : Annotation.t)
  : list jsstring :=
  match Annotation.highlights annotation with
  | Some hs => map Highlight.uri hs
  | None => []
  end.

(** ** The markup converter

    The rewriting engine lives in [turndownwrapper.js]; the assembler
    configures it with rules and options.  A rule rewrites the converted
    content of an element; of the element it reads attributes only. *)

Record node := Node { getAttribute : jsstring -> option jsstring }.

Record rule := Rule {
  filter : jsstring;
  replacement : jsstring -> node -> jsstring
}.

Record options := Options {
  emDelimiter : jsstring;
  strongDelimiter : jsstring
}.

Definition asterisks : options :=
  {| emDelimiter := js "*"; strongDelimiter := js "**" |}.

Definition noSups : rule :=
  {| filter := js "sup";
     replacement := fun _ _ => galaxy ++ foot ++ galaxy |}.

Definition addFakeWordSeparatorAfterLinks : rule :=
  {| filter := js "a";
     replacement := fun content node =>
       let rawHref :=
         match getAttribute node (js "href") with
         | Some (c :: s) => c :: s
         | _ => []
         end in
       let fullHref :=
         if startsWith rawHref (js "/") then studyRoot ++ rawHref
         else if startsWith rawHref (js "#") then []
         else rawHref in
       let md :=
         if truthy fullHref
         then js "[" ++ content ++ js "](" ++ fullHref ++ js ")"
         else content in
       galaxy ++ md ++ galaxy |}.

(** The largest index [k >= 1] of [run] that holds a line feed. *)
Fixpoint lastLineFeed (k : nat) (run : jsstring) : option nat :=
  match run with
  | [] => None
  | c :: run' =>
      match lastLineFeed (S k) run' with
      | Some j => Some j
      | None => if (c =? 10) && (1 <=? k)%nat then Some k else None
      end
  end.

(** [s.replace(/\n\s+\n/g, '\n\n')]: at a line feed the greedy [\s+]
    takes the run of white space that follows and gives units back until a
    line feed closes the match.  [skip] counts the units of a match still to
    be passed over. *)
Fixpoint collapseBlankLines (skip : nat) (s : jsstring) : jsstring :=
  match s with
  | [] => []
  | c :: s' =>
      match skip with
      | S k => collapseBlankLines k s'
      | O =>
          if c =? 10 then
            match lastLineFeed 0 (takeWhile isWhiteSpace s') with
            | Some k => [10; 10] ++ collapseBlankLines (S k) s'
            | None => c :: collapseBlankLines 0 s'
            end
          else c :: collapseBlankLines 0 s'
      end
  end.

(** [Math.max(h.startOffset - 1, 0)]; an absent field gives [NaN]. *)
Definition startWordOffset (h : Highlight.t) : jsnumber :=
  match Highlight.startOffset h with
  | Some s => Finite (Z.max (s - 1) 0)
  | None => NaN
  end.

(** [h.endOffset == -1 ? Number.POSITIVE_INFINITY : h.endOffset]; an absent
    field stays [undefined] and compares as [NaN]. *)
Definition endWordOffset (h : Highlight.t) : jsnumber :=
  match Highlight.endOffset h with
  | Some e => if (e =? -1)%Z then PosInfinity else Finite e
  | None => NaN
  end.

(** The resolution of one span on one converted block: the body of the
    callback that builds [highlightMd]. *)
Definition highlightPart (part : jsstring) (h : Highlight.t) : jsstring :=
  let startOffset := startWordOffset h in
  let endOffset := endWordOffset h in
  let parts := split part in
  let startIndex := wordOffsetToIndex parts startOffset in
  let endIndex := wordOffsetToIndex parts endOffset in
  join [] (slice startIndex endIndex parts).

(** The text a span contributes to [highlightMd]: its slice with the
    placeholders removed, trimmed. *)
Definition highlightText (part : jsstring) (h : Highlight.t) : jsstring :=
  trim (withoutPlaceholders (highlightPart part h)).

Definition blankLine : jsstring := [10; 10].

(** The callback of [mdParts.map], for the spans [hs]: [highlights[i]] is
    [undefined] past the end of the list, and reading a field of it throws. *)
Definition resolveSpan (hs : list Highlight.t) (i : nat) (part : jsstring)
  : result jsstring :=
  match hs !! i with
  | Some h => mret (highlightPart part h)
  | None => throw TypeError
  end.

Section Assembler.

(** [turndown(html, rules, options)] of [turndownwrapper.js]. *)
Variable turndown : jsstring -> list (jsstring * rule) -> options -> jsstring.

Definition htmlToMarkdownWithPlaceholders (html : jsstring) : jsstring :=
  turndown html
    [(js "no-sups", noSups);
     (js "add-fake-word-separator-after-links", addFakeWordSeparatorAfterLinks)]
    asterisks.

Definition noteToMarkdown (noteHtml : jsstring) : jsstring :=
  collapseBlankLines 0 (turndown noteHtml [] asterisks).

Variable contents : gmap jsstring Content.t.

(** The callback of [uris.map]: [contents[uri]], or the exception. *)
Definition lookupContents (uri : jsstring) : result Content.t :=
  match contents !! uri with
  | Some c => mret c
  | None => throw (MissingContents uri)
  end.

(** The converted blocks of a list of fragments, in order. *)
Definition convertedBlocks (contentObjs : list Content.t) : list jsstring :=
  map htmlToMarkdownWithPlaceholders
    (map Block.markup (flat_map Content.content contentObjs)).

(** The body of the [try] block, for one annotation. *)
Definition assemble (a : Annotation.t) : result Record.t :=
  id ← (match Annotation.annotationId a with
        | Some (c :: s) => mret (c :: s)
        | _ => throw MissingAnnotationId
        end);
  let highlights := default [] (Annotation.highlights a) in
  let uris := getContentUrisForAnnotation a in
  contentObjs ← mapM lookupContents uris;
  let source := (fun c => getSourceInfo a c) <$> head contentObjs in
  let sourceLink :=
    match head uris with
    | Some (c :: s) => Some (uriToUrl (Some (c :: s)))
    | _ => None
    end in
  let mdParts := convertedBlocks contentObjs in
  let fullMd := join blankLine (map withoutPlaceholders mdParts) in
  highlightParts ← imapM (resolveSpan highlights) 0 mdParts;
  let highlightMd :=
    join blankLine (map trim (map withoutPlaceholders highlightParts)) in
  let noteMd :=
    match Annotation.note a with
    | Some n =>
        match Note.content n with
        | Some (c :: s) => Some (noteToMarkdown (c :: s))
        | _ => None
        end
    | None => None
    end in
  let tags := default [] (map Tag.name <$> Annotation.tags a) in
  mret {| Record.id := id;
          Record.created := NewDate (Annotation.created a);
          Record.updated := NewDate (Annotation.lastUpdated a);
          Record.source := source;
          Record.fullMd := fullMd;
          Record.highlightMd := highlightMd;
          Record.noteMd := noteMd;
          Record.tags := tags;
          Record.sourceLink := sourceLink |}.

(** The callback of [annotations.map]: the [catch] clause logs the failure
    and returns [undefined]. *)
Definition tryAssemble (a : Annotation.t) : option Record.t :=
  match assemble a with
  | inr r => Some r
  | inl _ => None
  end.

(** [h => !!h?.highlightMd] *)
Definition hasHighlightMd (h : option Record.t) : bool :=
  match h with
  | Some r => truthy (Record.highlightMd r)
  | None => false
  end.

Definition assembleHighlights (annotations : list Annotation.t)
  : list (option Record.t) :=
  List.filter hasHighlightMd (map tryAssemble annotations).

End Assembler.


(** ** Notions of the specification

    The definitions below follow the words of the specification; the
    theorems compare them with the code. *)

(** A link in Markdown syntax, as the link rule writes it. *)
Definition markdownLink (text url : jsstring) : jsstring :=
  js "[" ++ text ++ js "](" ++ url ++ js ")".



(** [s] is the first entry of [table] whose URL is a prefix of [url]. *)
Definition firstPrefixMatch (url : jsstring) (table : list Source.t)
    (s : Source.t) : Prop :=
  exists before after,
    table = before ++ s :: after
    /\ startsWith url (Source.url s) = true
    /\ Forall (fun s' => startsWith url (Source.url s') = false) before.

(** No entry of [table] has a URL that is a prefix of [url]. *)
Definition noPrefixMatch (url : jsstring) (table : list Source.t) : Prop :=
  Forall (fun s' => startsWith url (Source.url s') = false) table.

(** The citation synthesized from the metadata of a fragment: the author is
    the author name of the fragment or, failing that, its publication name;
    the title is its headline. *)
Definition synthesizedCitation (url : jsstring) (c : Content.t) : Source.t :=
  {| Source.url := url;
     Source.title := Content.headline c;
     Source.author :=
       match Content.authorName c with
       | Some (x :: s) => Some (x :: s)
       | _ => Content.publication c
       end;
     Source.type := None |}.

(** The citation as the specification resolves it: from the absolute URL of
    the first highlight URI. *)
Definition citationOfFirstHighlightUri (firstUri : jsstring) (c : Content.t)
  : Source.t :=
  let url := uriToUrl (Some firstUri) in
  match find (fun s => startsWith url (Source.url s)) knownSources with
  | Some s => s
  | None => synthesizedCitation url c
  end.

(** The pairing of spans and texts as the specification has it: span [i]
    is resolved against converted text of the fragment fetched for its own
    URI, and the results are joined with blank lines. *)
Definition resolvedByFragment
    (turndown : jsstring -> list (jsstring * rule) -> options -> jsstring)
    (contents : gmap jsstring Content.t) (a : Annotation.t) (r : Record.t)
  : Prop :=
  exists texts,
    Forall2 (fun h text =>
               exists c part,
                 contents !! Highlight.uri h = Some c
                 /\ part ∈ convertedBlocks turndown [c]
                 /\ text = highlightText part h)
            (default [] (Annotation.highlights a)) texts
    /\ Record.highlightMd r = join blankLine texts.

(** ** Inputs of the examples *)

(** A converter that leaves its input as it is. *)
Definition plainTurndown (html : jsstring) (rules : list (jsstring * rule))
    (opts : options) : jsstring := html.

Definition talkFragment : Content.t :=
  {| Content.content := [ {| Block.markup := js "one two three" |} ];
     Content.authorName := Some (js "Alma");
     Content.publication := Some (js "Liahona");
     Content.headline := Some (js "A Talk") |}.

Definition talkContents : gmap jsstring Content.t :=
  {[ js "/general-conference/talk.p1" := talkFragment ]}.

Definition talkSpan : Highlight.t :=
  {| Highlight.uri := js "/general-conference/talk.p1";
     Highlight.startOffset := Some 1%Z;
     Highlight.endOffset := Some (-1)%Z |}.

Definition talkAnnotation : Annotation.t :=
  {| Annotation.annotationId := Some (js "a1");
     Annotation.highlights := Some [talkSpan];
     Annotation.uri := Some (js "/general-conference/talk");
     Annotation.note := None;
     Annotation.tags := None;
     Annotation.created := None;
     Annotation.lastUpdated := None |}.

Definition talkRecord : Record.t :=
  {| Record.id := js "a1";
     Record.created := NewDate None;
     Record.updated := NewDate None;
     Record.source :=
       Some {| Source.url :=
                 js "https://www.churchofjesuschrist.org/study/general-conference/talk";
               Source.title := Some (js "A Talk");
               Source.author := Some (js "Alma");
               Source.type := None |};
     Record.fullMd := js "one two three";
     Record.highlightMd := js "one two three";
     Record.noteMd := None;
     Record.tags := [];
     Record.sourceLink :=
       Some (js "https://www.churchofjesuschrist.org/study/general-conference/talk.p1") |}.

Definition unidentifiedAnnotation : Annotation.t :=
  {| Annotation.annotationId := None;
     Annotation.highlights := Some [talkSpan];
     Annotation.uri := Some (js "/general-conference/talk");
     Annotation.note := None;
     Annotation.tags := None;
     Annotation.created := None;
     Annotation.lastUpdated := None |}.

Definition movedAnnotation : Annotation.t :=
  {| Annotation.annotationId := Some (js "a2");
     Annotation.highlights :=
       Some [ {| Highlight.uri := js "/moved.p1";
                 Highlight.startOffset := Some 1%Z;
                 Highlight.endOffset := Some (-1)%Z |} ];
     Annotation.uri := Some (js "/moved");
     Annotation.note := None;
     Annotation.tags := None;
     Annotation.created := None;
     Annotation.lastUpdated := None |}.

Definition spanlessAnnotation : Annotation.t :=
  {| Annotation.annotationId := Some (js "a3");
     Annotation.highlights := None;
     Annotation.uri := Some (js "/general-conference/talk");
     Annotation.note := None;
     Annotation.tags := None;
     Annotation.created := None;
     Annotation.lastUpdated := None |}.

Definition wholeBlock (uri : jsstring) : Highlight.t :=
  {| Highlight.uri := uri;
     Highlight.startOffset := Some 1%Z;
     Highlight.endOffset := Some (-1)%Z |}.

Definition fragmentOf (blocks : list jsstring) : Content.t :=
  {| Content.content := map Block.Make blocks;
     Content.authorName := None;
     Content.publication := None;
     Content.headline := None |}.

Definition twoSpanAnnotation : Annotation.t :=
  {| Annotation.annotationId := Some (js "a4");
     Annotation.highlights := Some [wholeBlock (js "/x"); wholeBlock (js "/y")];
     Annotation.uri := Some (js "/x");
     Annotation.note := None;
     Annotation.tags := None;
     Annotation.created := None;
     Annotation.lastUpdated := None |}.

(** Fragment [/x] holds two blocks, fragment [/y] one. *)
Definition threeBlockContents : gmap jsstring Content.t :=
  <[ js "/x" := fragmentOf [js "alpha"; js "beta"] ]>
    {[ js "/y" := fragmentOf [js "gamma"] ]}.

(** Spans that select nothing, on two fragments of one block each. *)
Definition emptySpan (uri : jsstring) : Highlight.t :=
  {| Highlight.uri := uri;
     Highlight.startOffset := Some 1%Z;
     Highlight.endOffset := Some 0%Z |}.

Definition emptySpansAnnotation : Annotation.t :=
  {| Annotation.annotationId := Some (js "a6");
     Annotation.highlights := Some [emptySpan (js "/x"); emptySpan (js "/y")];
     Annotation.uri := Some (js "/x");
     Annotation.note := None;
     Annotation.tags := None;
     Annotation.created := None;
     Annotation.lastUpdated := None |}.

Definition twoBlockContents : gmap jsstring Content.t :=
  <[ js "/x" := fragmentOf [js "alpha"] ]>
    {[ js "/y" := fragmentOf [js "gamma"] ]}.

(** ** Notions used by the further properties *)

(** A token of word content, and a token of separator content. *)
Definition isWordToken (p : jsstring) : Prop :=
  Forall (fun c => isSeparatorChar c = false) p.

Definition isSeparatorToken (p : jsstring) : Prop :=
  p <> [] /\ Forall (fun c => isSeparatorChar c = true) p.

(** A token sequence that starts and ends with a word token and alternates
    between word tokens and separator tokens. *)
Fixpoint alternating (parts : list jsstring) : Prop :=
  match parts with
  | [] => False
  | w :: rest =>
      isWordToken w
      /\ match rest with
         | [] => True
         | sp :: rest' => isSeparatorToken sp /\ alternating rest'
         end
  end.

(** Every token but the last is non-empty. *)
Fixpoint allButLastNonEmpty (parts : list jsstring) : Prop :=
  match parts with
  | [] => True
  | p :: rest =>
      match rest with
      | [] => True
      | _ :: _ => p <> [] /\ allButLastNonEmpty rest
      end
  end.

(** The value of the counter of [wordOffsetToIndex] when its loop ends. *)
Definition counted (wordsAndSeparators : list jsstring) (wordOffset : jsnumber)
  : nat :=
  offset (loop wordOffset wordsAndSeparators initialState).

(** Surrogate code units, and strings in which they only come in pairs. *)
Definition isHighSurrogate (c : char) : bool :=
  (0xD800 <=? c) && (c <=? 0xDBFF).

Definition isLowSurrogate (c : char) : bool :=
  (0xDC00 <=? c) && (c <=? 0xDFFF).

Fixpoint wellFormed (s : jsstring) : bool :=
  match s with
  | [] => true
  | c :: t =>
      if isHighSurrogate c then
        match t with
        | l :: s' => isLowSurrogate l && wellFormed s'
        | [] => false
        end
      else negb (isLowSurrogate c) && wellFormed t
  end.

Definition lineFeed : char := 10.

(** ** Properties of the embedding *)

(** The last token of a sequence is itself counted as a word: the resolver
    is not inside a link when it reaches it, and it is no separator. *)
Definition lastTokenCounted (parts : list jsstring) : Prop :=
  (wordCount (removelast parts) < wordCount parts)%nat.

(** *** Strings and tokens *)

Lemma join_empty_concat (l : list jsstring) : join [] l = concat l.
Proof.
  induction l as [|x l IH]; [reflexivity|].
  destruct l as [|y l]; simpl in *.
  - now rewrite app_nil_r.
  - now rewrite IH.
Qed.

Lemma split_from_concat (s : jsstring) :
  forall inSep cur, concat (split_from inSep cur s) = rev cur ++ s.
Proof.
  induction s as [|c s IH]; intros inSep cur; simpl.
  - destruct inSep; simpl; now rewrite ?app_nil_r.
  - destruct (isSeparatorChar c), inSep; simpl; rewrite IH; simpl;
      now rewrite <- ?app_assoc.
Qed.

Lemma slice_all {A} (l : list A) : slice 0 (length l) l = l.
Proof.
  unfold slice. rewrite Nat.sub_0_r, drop_0. apply firstn_all.
Qed.

Lemma slice_empty {A} (from to : nat) (l : list A) :
  (to <= from)%nat -> slice from to l = [].
Proof.
  intros H. unfold slice. now replace (to - from)%nat with 0%nat by lia.
Qed.

Lemma slice_past_end {A} (from to : nat) (l : list A) :
  (length l <= from)%nat -> slice from to l = [].
Proof.
  intros H. unfold slice. rewrite drop_ge by exact H. now destruct (to - from)%nat.
Qed.

Lemma join_split (s : jsstring) : join [] (split s) = s.
Proof.
  rewrite join_empty_concat. unfold split. now rewrite split_from_concat.
Qed.

(** *** The loop of the resolver *)

Lemma ltNumber_mono (n m : nat) (w : jsnumber) :
  (n <= m)%nat -> ltNumber m w = true -> ltNumber n w = true.
Proof.
  destruct w as [z| |]; simpl; try easy.
  intros Hle H. apply Z.ltb_lt in H. apply Z.ltb_lt. lia.
Qed.

Lemma loopBody_index (p : jsstring) (st : loopState) :
  index (loopBody p st) = S (index st).
Proof. reflexivity. Qed.

Lemma loopBody_offset_le (p : jsstring) (st : loopState) :
  (offset st <= offset (loopBody p st) <= S (offset st))%nat.
Proof.
  unfold loopBody; simpl. destruct (negb (inLink st) && notSeparator p); lia.
Qed.

Lemma loop_stop (w : jsnumber) (rest : list jsstring) (st : loopState) :
  ltNumber (offset st) w = false -> loop w rest st = st.
Proof. intros H. destruct rest; simpl; [reflexivity | now rewrite H]. Qed.

Lemma loop_offset_mono (w : jsnumber) (rest : list jsstring) :
  forall st, (offset st <= offset (loop w rest st))%nat.
Proof.
  induction rest as [|p rest IH]; intros st; simpl; [lia|].
  destruct (ltNumber (offset st) w); [|lia].
  specialize (IH (loopBody p st)). pose proof (loopBody_offset_le p st). lia.
Qed.

Lemma loop_index_bounds (w : jsnumber) (rest : list jsstring) :
  forall st, (index st <= index (loop w rest st) <= index st + length rest)%nat.
Proof.
  induction rest as [|p rest IH]; intros st; simpl; [lia|].
  destruct (ltNumber (offset st) w); [|lia].
  specialize (IH (loopBody p st)). rewrite loopBody_index in IH. lia.
Qed.

Lemma loop_unbounded_index (rest : list jsstring) :
  forall st, index (loop PosInfinity rest st) = (index st + length rest)%nat.
Proof.
  induction rest as [|p rest IH]; intros st; simpl; [lia|].
  rewrite IH, loopBody_index. lia.
Qed.

(** A bound that the unbounded walk never reaches lets the bounded walk run
    to the end: both walks agree. *)
Lemma loop_below_bound (w : jsnumber) (rest : list jsstring) :
  forall st,
    ltNumber (offset (loop PosInfinity rest st)) w = true ->
    loop w rest st = loop PosInfinity rest st.
Proof.
  induction rest as [|p rest IH]; intros st H; simpl in *; [reflexivity|].
  assert (Hst : ltNumber (offset st) w = true).
  { eapply ltNumber_mono; [|exact H].
    etransitivity; [apply (loopBody_offset_le p st) | apply loop_offset_mono]. }
  rewrite Hst. now apply IH.
Qed.

Lemma loop_app (w : jsnumber) (l1 l2 : list jsstring) :
  forall st,
    ltNumber (offset (loop w l1 st)) w = true ->
    loop w (l1 ++ l2) st = loop w l2 (loop w l1 st).
Proof.
  induction l1 as [|p l1 IH]; intros st H; simpl in *; [reflexivity|].
  destruct (ltNumber (offset st) w) eqn:Hst.
  - now apply IH.
  - congruence.
Qed.


(** A larger offset never resolves to an earlier index. *)
Lemma loop_index_mono (w1 w2 : jsnumber) (rest : list jsstring) :
  (forall n, ltNumber n w1 = true -> ltNumber n w2 = true) ->
  forall st, (index (loop w1 rest st) <= index (loop w2 rest st))%nat.
Proof.
  intros Hw. induction rest as [|p rest IH]; intros st; simpl; [lia|].
  destruct (ltNumber (offset st) w1) eqn:H1.
  - rewrite (Hw _ H1). apply IH.
  - destruct (ltNumber (offset st) w2); [|lia].
    pose proof (loop_index_bounds w2 rest (loopBody p st)) as Hb.
    rewrite loopBody_index in Hb. lia.
Qed.

Lemma wordOffsetToIndex_mono (parts : list jsstring) (e s : Z) :
  (e <= s)%Z ->
  (wordOffsetToIndex parts (Finite e) <= wordOffsetToIndex parts (Finite s))%nat.
Proof.
  intros H. apply loop_index_mono. intros n Hn. simpl in *.
  apply Z.ltb_lt in Hn. apply Z.ltb_lt. lia.
Qed.

Lemma wordOffsetToIndex_le_length (parts : list jsstring) (w : jsnumber) :
  (wordOffsetToIndex parts w <= length parts)%nat.
Proof.
  unfold wordOffsetToIndex.
  pose proof (loop_index_bounds w parts initialState) as H. simpl in H. lia.
Qed.

Lemma wordOffsetToIndex_unbounded (parts : list jsstring) :
  wordOffsetToIndex parts PosInfinity = length parts.
Proof. unfold wordOffsetToIndex. now rewrite loop_unbounded_index. Qed.

Lemma wordOffsetToIndex_beyond (parts : list jsstring) (w : Z) :
  (Z.of_nat (wordCount parts) < w)%Z ->
  wordOffsetToIndex parts (Finite w) = length parts.
Proof.
  intros H. unfold wordOffsetToIndex, wordCount in *.
  rewrite loop_below_bound, loop_unbounded_index; [reflexivity|].
  now apply Z.ltb_lt.
Qed.

Lemma wordOffsetToIndex_last_counted (parts : list jsstring) (w : Z) :
  Z.of_nat (wordCount parts) = w ->
  lastTokenCounted parts ->
  wordOffsetToIndex parts (Finite w) = length parts.
Proof.
  unfold lastTokenCounted. intros Hw Hlast.
  destruct (exists_last (l := parts)) as (init & last & ->).
  { intros ->. simpl in Hlast. lia. }
  rewrite removelast_last in Hlast.
  unfold wordOffsetToIndex, wordCount in *.
  assert (Hinit : loop (Finite w) init initialState
                  = loop PosInfinity init initialState).
  { apply loop_below_bound. apply Z.ltb_lt. lia. }
  rewrite loop_app; rewrite Hinit; [|apply Z.ltb_lt; lia].
  simpl. replace (Z.of_nat _ <? w)%Z with true by (symmetry; apply Z.ltb_lt; lia).
  rewrite loopBody_index, loop_unbounded_index, length_app. simpl. lia.
Qed.

(** *** C4 *)

(** C4: splitting a string into word and separator tokens and concatenating
    the tokens in order gives the string back, for every string. *)
Theorem split_join_roundtrip (s : jsstring) : join [] (split s) = s.
Proof. exact (join_split s). Qed.

(** *** C5 *)

Lemma wordOffsetToIndex_start (parts : list jsstring) (h : Highlight.t) :
  Highlight.startOffset h = Some 1%Z \/ Highlight.startOffset h = None ->
  wordOffsetToIndex parts (startWordOffset h) = 0%nat.
Proof.
  intros [H|H]; unfold wordOffsetToIndex, startWordOffset; rewrite H;
    now rewrite loop_stop.
Qed.

(** C5: a span whose start offset is 1 or absent and whose end offset is the
    sentinel -1 extracts the whole block: its highlighted text is the
    placeholder-stripped, trimmed text of the block. *)
Theorem unbounded_span_is_whole_block (part : jsstring) (h : Highlight.t) :
  Highlight.startOffset h = Some 1%Z \/ Highlight.startOffset h = None ->
  Highlight.endOffset h = Some (-1)%Z ->
  highlightText part h = trim (withoutPlaceholders part).
Proof.
  intros Hstart Hend. unfold highlightText, highlightPart.
  rewrite (wordOffsetToIndex_start _ _ Hstart).
  unfold endWordOffset. rewrite Hend. simpl.
  rewrite wordOffsetToIndex_unbounded, slice_all.
  now rewrite join_split.
Qed.

Lemma unbounded_span_is_whole_block_witness :
  let h := {| Highlight.uri := js "/x";
              Highlight.startOffset := Some 1%Z;
              Highlight.endOffset := Some (-1)%Z |} in
  let part := js " see " ++ galaxy ++ js "[a b](c-d)" ++ galaxy ++ js " " in
  (Highlight.startOffset h = Some 1%Z \/ Highlight.startOffset h = None)
  /\ Highlight.endOffset h = Some (-1)%Z
  /\ highlightText part h = trim (withoutPlaceholders part).
Proof.
  split; [left; reflexivity|]. split; [reflexivity|].
  apply unbounded_span_is_whole_block; [left|]; reflexivity.
Defined.

(** *** C6 *)

(** C6: when the end offset resolves to a token index at or before the one
    the start offset resolves to, the slice of tokens is empty, and so is
    the highlighted text of the block. *)
Theorem inverted_span_is_empty (part : jsstring) (h : Highlight.t) :
  (wordOffsetToIndex (split part) (endWordOffset h)
   <= wordOffsetToIndex (split part) (startWordOffset h))%nat ->
  slice (wordOffsetToIndex (split part) (startWordOffset h))
        (wordOffsetToIndex (split part) (endWordOffset h)) (split part) = []
  /\ highlightText part h = [].
Proof.
  intros H. split; [now apply slice_empty|].
  unfold highlightText, highlightPart. now rewrite slice_empty.
Qed.

Lemma inverted_span_is_empty_witness :
  let h := {| Highlight.uri := js "/x";
              Highlight.startOffset := Some 3%Z;
              Highlight.endOffset := Some 1%Z |} in
  let part := js "one two three" in
  (wordOffsetToIndex (split part) (endWordOffset h)
   <= wordOffsetToIndex (split part) (startWordOffset h))%nat
  /\ highlightText part h = [].
Proof.
  assert (H : (wordOffsetToIndex (split (js "one two three")) (Finite 1)
               <= wordOffsetToIndex (split (js "one two three")) (Finite 2))%nat)
    by (vm_compute; lia).
  split; [exact H|].
  exact (proj2 (inverted_span_is_empty (js "one two three")
                  {| Highlight.uri := js "/x";
                     Highlight.startOffset := Some 3%Z;
                     Highlight.endOffset := Some 1%Z |} H)).
Defined.

(** In particular an end offset that is no larger, as a number, than the
    decremented start offset gives an empty text. *)
Lemma end_offset_before_start_is_empty (part : jsstring) (h : Highlight.t)
    (s e : Z) :
  Highlight.startOffset h = Some s ->
  Highlight.endOffset h = Some e ->
  e <> (-1)%Z ->
  (e <= Z.max (s - 1) 0)%Z ->
  highlightText part h = [].
Proof.
  intros Hs He Hsentinel Hle. unfold highlightText, highlightPart.
  rewrite slice_empty; [reflexivity|].
  unfold startWordOffset, endWordOffset. rewrite Hs, He.
  destruct (Z.eqb_spec e (-1)) as [->|_]; [contradiction|].
  now apply wordOffsetToIndex_mono.
Qed.

(** *** C7 *)

(** A start past the last word: when the decremented and floored start
    offset is greater than the number of words of the block, or equal to it
    while the last token of the block is itself counted, the start resolves
    to the end of the token sequence and the highlighted text of the block
    is empty. *)
Theorem start_beyond_words_is_empty (part : jsstring) (h : Highlight.t) (s : Z) :
  Highlight.startOffset h = Some s ->
  (Z.of_nat (wordCount (split part)) < Z.max (s - 1) 0)%Z
  \/ (Z.of_nat (wordCount (split part)) = Z.max (s - 1) 0
      /\ lastTokenCounted (split part)) ->
  wordOffsetToIndex (split part) (startWordOffset h) = length (split part)
  /\ highlightText part h = [].
Proof.
  intros Hs Hcount.
  assert (Hidx : wordOffsetToIndex (split part) (startWordOffset h)
                 = length (split part)).
  { unfold startWordOffset. rewrite Hs. destruct Hcount as [Hlt|[Heq Hlast]].
    - now apply wordOffsetToIndex_beyond.
    - now apply wordOffsetToIndex_last_counted. }
  split; [exact Hidx|].
  unfold highlightText, highlightPart. rewrite Hidx.
  now rewrite slice_past_end.
Qed.

Lemma start_beyond_words_is_empty_witness :
  let h := {| Highlight.uri := js "/x";
              Highlight.startOffset := Some 4%Z;
              Highlight.endOffset := Some (-1)%Z |} in
  let part := js "one two three" in
  Highlight.startOffset h = Some 4%Z
  /\ ((Z.of_nat (wordCount (split part)) < Z.max (4 - 1) 0)%Z
      \/ (Z.of_nat (wordCount (split part)) = Z.max (4 - 1) 0
          /\ lastTokenCounted (split part)))
  /\ wordOffsetToIndex (split part) (startWordOffset h) = length (split part)
  /\ highlightText part h = [].
Proof.
  assert (H : (Z.of_nat (wordCount (split (js "one two three"))) < Z.max (4 - 1) 0)%Z
              \/ (Z.of_nat (wordCount (split (js "one two three"))) = Z.max (4 - 1) 0
                  /\ lastTokenCounted (split (js "one two three")))).
  { right. split; [reflexivity|]. unfold lastTokenCounted. vm_compute. lia. }
  split; [reflexivity|]. split; [exact H|].
  exact (start_beyond_words_is_empty (js "one two three")
           {| Highlight.uri := js "/x";
              Highlight.startOffset := Some 4%Z;
              Highlight.endOffset := Some (-1)%Z |} 4 eq_refl H).
Defined.

(** C7: a start offset that, decremented and floored, is at least the number
    of words of the block should resolve to the end of the token sequence
    and give an empty highlighted text.  The code misses the case where the
    counter reaches the offset on the first token of a link whose address
    holds a separator: on the block [[a](b-c)], which has one word and three
    tokens, the start offset 2 resolves to index 1, and the rest of the
    address is taken as highlighted text. *)
Lemma start_at_word_count_inside_link :
  let h := {| Highlight.uri := js "/x";
              Highlight.startOffset := Some 2%Z;
              Highlight.endOffset := Some (-1)%Z |} in
  let part := js "[a](b-c)" in
  (Z.of_nat (wordCount (split part)) <= Z.max (2 - 1) 0)%Z
  /\ wordOffsetToIndex (split part) (startWordOffset h) = 1%nat
  /\ length (split part) = 3%nat
  /\ highlightText part h = js "-c)"
  /\ highlightText part h <> [].
Proof.
  vm_compute. repeat split; try reflexivity; [intros H; discriminate H | discriminate].
Qed.

(** *** The assembler *)

Section AssemblerFacts.

Variable turndown : jsstring -> list (jsstring * rule) -> options -> jsstring.
Variable contents : gmap jsstring Content.t.

Lemma assemble_missing_id (a : Annotation.t) :
  truthyOpt (Annotation.annotationId a) = false ->
  assemble turndown contents a = inl MissingAnnotationId.
Proof.
  intros H. unfold assemble.
  destruct (Annotation.annotationId a) as [[|c s]|]; simpl in *;
    try discriminate; reflexivity.
Qed.

Lemma mapM_result_cons {A B} (f : A -> result B) (x : A) (l : list A) :
  mapM f (x :: l) = y ← f x; k ← mapM f l; mret (y :: k).
Proof. reflexivity. Qed.

Lemma lookup_missing (uris : list jsstring) (uri : jsstring) :
  uri ∈ uris -> contents !! uri = None ->
  exists u, mapM (lookupContents contents) uris = inl (MissingContents u).
Proof.
  induction uris as [|v uris IH]; intros Hin Hnone.
  - inversion Hin.
  - rewrite mapM_result_cons.
    destruct (contents !! v) as [c|] eqn:Hv.
    + assert (Hl : lookupContents contents v = inr c)
        by (unfold lookupContents; now rewrite Hv).
      destruct IH as [u Hu].
      * apply elem_of_cons in Hin as [->|Hin]; [congruence | exact Hin].
      * exact Hnone.
      * exists u. now rewrite Hl, Hu.
    + assert (Hl : lookupContents contents v = inl (MissingContents v))
        by (unfold lookupContents; now rewrite Hv).
      exists v. now rewrite Hl.
Qed.

Lemma assemble_missing_contents (a : Annotation.t) (uri : jsstring) :
  uri ∈ getContentUrisForAnnotation a -> contents !! uri = None ->
  exists e, assemble turndown contents a = inl e.
Proof.
  intros Hin Hnone. unfold assemble.
  destruct (Annotation.annotationId a) as [[|c s]|];
    try (now exists MissingAnnotationId).
  destruct (lookup_missing _ _ Hin Hnone) as [u Hu].
  exists (MissingContents u). simpl. now rewrite Hu.
Qed.

Lemma assembleHighlights_app (l1 l2 : list Annotation.t) :
  assembleHighlights turndown contents (l1 ++ l2)
  = assembleHighlights turndown contents l1
    ++ assembleHighlights turndown contents l2.
Proof. unfold assembleHighlights. now rewrite map_app, List.filter_app. Qed.

Lemma assembleHighlights_cons (a : Annotation.t) (l : list Annotation.t) :
  assembleHighlights turndown contents (a :: l)
  = (if hasHighlightMd (tryAssemble turndown contents a)
     then [tryAssemble turndown contents a] else [])
    ++ assembleHighlights turndown contents l.
Proof.
  unfold assembleHighlights. simpl.
  now destruct (hasHighlightMd (tryAssemble turndown contents a)).
Qed.

(** An annotation that yields nothing leaves the output of the others as it
    is. *)
Lemma assembleHighlights_skip (pre post : list Annotation.t) (a : Annotation.t) :
  hasHighlightMd (tryAssemble turndown contents a) = false ->
  assembleHighlights turndown contents (pre ++ a :: post)
  = assembleHighlights turndown contents pre
    ++ assembleHighlights turndown contents post.
Proof.
  intros H. now rewrite assembleHighlights_app, assembleHighlights_cons, H.
Qed.

Lemma assembleHighlights_emits (l : list Annotation.t) (b : Annotation.t)
    (r : Record.t) :
  b ∈ l -> assemble turndown contents b = inr r ->
  Record.highlightMd r <> [] ->
  Some r ∈ assembleHighlights turndown contents l.
Proof.
  intros Hin Hb Hmd. unfold assembleHighlights.
  apply list_elem_of_In, List.filter_In. split.
  - apply list_elem_of_In. apply list_elem_of_fmap. exists b.
    unfold tryAssemble. now rewrite Hb.
  - simpl. now destruct (Record.highlightMd r).
Qed.

(** *** C8 *)

(** C8: an annotation whose assembly fails (its identifier is missing, one
    of its span URIs has no fragment in the mapping, or any other exception
    is thrown) yields no record and nothing else: the batch returns the
    records of the annotations before it followed by those of the
    annotations after it, and every other annotation that assembles to a
    record with highlighted text is emitted. *)
Theorem failed_annotation_is_skipped (pre post : list Annotation.t)
    (a : Annotation.t) :
  truthyOpt (Annotation.annotationId a) = false
  \/ (exists uri, uri ∈ getContentUrisForAnnotation a /\ contents !! uri = None)
  \/ (exists e, assemble turndown contents a = inl e) ->
  tryAssemble turndown contents a = None
  /\ assembleHighlights turndown contents (pre ++ a :: post)
     = assembleHighlights turndown contents pre
       ++ assembleHighlights turndown contents post
  /\ (forall b r, b ∈ pre ++ post ->
        assemble turndown contents b = inr r ->
        Record.highlightMd r <> [] ->
        Some r ∈ assembleHighlights turndown contents (pre ++ a :: post)).
Proof.
  intros Hfail.
  assert (Herr : exists e, assemble turndown contents a = inl e).
  { destruct Hfail as [Hid|[(uri & Hin & Hnone)|Herr]].
    - exists MissingAnnotationId. now apply assemble_missing_id.
    - now apply (assemble_missing_contents a uri).
    - exact Herr. }
  destruct Herr as [e He].
  assert (Hnone : tryAssemble turndown contents a = None)
    by (unfold tryAssemble; now rewrite He).
  assert (Hskip : assembleHighlights turndown contents (pre ++ a :: post)
                  = assembleHighlights turndown contents pre
                    ++ assembleHighlights turndown contents post)
    by (apply assembleHighlights_skip; now rewrite Hnone).
  split; [exact Hnone|]. split; [exact Hskip|].
  intros b r Hin Hb Hmd. rewrite Hskip, <- assembleHighlights_app.
  now apply (assembleHighlights_emits _ b).
Qed.

(** *** The final filter *)

(** Every element of the list the batch returns passes the final filter: it
    is a record, and its highlighted text is not the empty string. *)
Theorem emitted_records_have_text (annotations : list Annotation.t) :
  Forall (fun h => exists r, h = Some r /\ Record.highlightMd r <> [])
         (assembleHighlights turndown contents annotations).
Proof.
  apply Forall_forall. intros h Hin.
  apply list_elem_of_In, List.filter_In in Hin as [_ Hkeep].
  destruct h as [r|]; [|discriminate].
  exists r. split; [reflexivity|].
  simpl in Hkeep. now destruct (Record.highlightMd r).
Qed.

(** *** C10 *)

Lemma assemble_no_highlights (a : Annotation.t) :
  truthyOpt (Annotation.annotationId a) = true ->
  Annotation.highlights a = None \/ Annotation.highlights a = Some [] ->
  exists r, assemble turndown contents a = inr r
            /\ Record.highlightMd r = []
            /\ Record.fullMd r = []
            /\ Record.source r = None.
Proof.
  intros Hid Hhs. unfold assemble, getContentUrisForAnnotation.
  destruct (Annotation.annotationId a) as [[|c s]|]; try discriminate.
  destruct Hhs as [-> | ->]; simpl; eexists; repeat split.
Qed.

(** C10: an annotation with an identifier and no span (the list of
    highlights is absent or empty) assembles without an error to a record
    whose highlighted text is the empty string, and the batch emits no
    record for it. *)
Theorem annotation_without_spans_is_dropped (pre post : list Annotation.t)
    (a : Annotation.t) :
  truthyOpt (Annotation.annotationId a) = true ->
  Annotation.highlights a = None \/ Annotation.highlights a = Some [] ->
  (exists r, assemble turndown contents a = inr r /\ Record.highlightMd r = [])
  /\ assembleHighlights turndown contents [a] = []
  /\ assembleHighlights turndown contents (pre ++ a :: post)
     = assembleHighlights turndown contents pre
       ++ assembleHighlights turndown contents post.
Proof.
  intros Hid Hhs.
  destruct (assemble_no_highlights a Hid Hhs) as (r & Hr & Hmd & _).
  assert (Hdrop : hasHighlightMd (tryAssemble turndown contents a) = false)
    by (unfold tryAssemble; rewrite Hr; simpl; now rewrite Hmd).
  split; [now exists r|]. split.
  - now rewrite assembleHighlights_cons, Hdrop.
  - now apply assembleHighlights_skip.
Qed.

End AssemblerFacts.

Lemma failed_annotation_is_skipped_witness :
  (truthyOpt (Annotation.annotationId unidentifiedAnnotation) = false
   \/ (exists uri, uri ∈ getContentUrisForAnnotation unidentifiedAnnotation
                   /\ talkContents !! uri = None)
   \/ (exists e, assemble plainTurndown talkContents unidentifiedAnnotation = inl e))
  /\ tryAssemble plainTurndown talkContents unidentifiedAnnotation = None
  /\ assembleHighlights plainTurndown talkContents
       ([talkAnnotation] ++ unidentifiedAnnotation :: [movedAnnotation])
     = assembleHighlights plainTurndown talkContents [talkAnnotation]
       ++ assembleHighlights plainTurndown talkContents [movedAnnotation].
Proof.
  assert (H : truthyOpt (Annotation.annotationId unidentifiedAnnotation) = false
              \/ (exists uri, uri ∈ getContentUrisForAnnotation unidentifiedAnnotation
                              /\ talkContents !! uri = None)
              \/ (exists e, assemble plainTurndown talkContents
                              unidentifiedAnnotation = inl e))
    by (left; reflexivity).
  split; [exact H|].
  pose proof (failed_annotation_is_skipped plainTurndown talkContents
                [talkAnnotation] [movedAnnotation] unidentifiedAnnotation H)
    as (Hnone & Hbatch & _).
  split; [exact Hnone | exact Hbatch].
Defined.

(** The scenarios of the specification: a valid annotation and one with no
    identifier give exactly the record of the valid one; an annotation whose
    URI is not in the mapping gives no record. *)
Example one_valid_one_unidentified :
  assembleHighlights plainTurndown talkContents
    [talkAnnotation; unidentifiedAnnotation] = [Some talkRecord].
Proof. vm_compute. reflexivity. Qed.

Example moved_content_gives_no_record :
  assemble plainTurndown talkContents movedAnnotation
  = inl (MissingContents (js "/moved.p1"))
  /\ assembleHighlights plainTurndown talkContents [movedAnnotation] = [].
Proof. split; vm_compute; reflexivity. Qed.

Lemma annotation_without_spans_is_dropped_witness :
  truthyOpt (Annotation.annotationId spanlessAnnotation) = true
  /\ (Annotation.highlights spanlessAnnotation = None
      \/ Annotation.highlights spanlessAnnotation = Some [])
  /\ assembleHighlights plainTurndown talkContents [spanlessAnnotation] = []
  /\ assembleHighlights plainTurndown talkContents
       ([talkAnnotation] ++ spanlessAnnotation :: [])
     = assembleHighlights plainTurndown talkContents [talkAnnotation]
       ++ assembleHighlights plainTurndown talkContents [].
Proof.
  assert (Hid : truthyOpt (Annotation.annotationId spanlessAnnotation) = true)
    by reflexivity.
  assert (Hhs : Annotation.highlights spanlessAnnotation = None
                \/ Annotation.highlights spanlessAnnotation = Some [])
    by (left; reflexivity).
  split; [exact Hid|]. split; [exact Hhs|].
  pose proof (annotation_without_spans_is_dropped plainTurndown talkContents
                [talkAnnotation] [] spanlessAnnotation Hid Hhs)
    as (_ & Hone & Hbatch).
  split; [exact Hone | exact Hbatch].
Defined.

(** *** C9 *)

(** C9: an annotation whose highlighted text resolves empty should be
    dropped before the final output, as the comment on the filter says
    ("filter out errors and empty highlights").  The code misses the case of
    two blocks or more: the texts of the blocks are joined with a blank line
    before the filter looks at the result.  With one block under [/x] and
    one under [/y] and two spans that select nothing, the text of each block
    is empty, the highlighted text of the record is the blank line alone,
    and the record is emitted. *)
Lemma blank_highlight_is_emitted :
  highlightText (js "alpha") (emptySpan (js "/x")) = []
  /\ highlightText (js "gamma") (emptySpan (js "/y")) = []
  /\ exists r,
       assembleHighlights plainTurndown twoBlockContents [emptySpansAnnotation]
       = [Some r]
       /\ Record.highlightMd r = blankLine
       /\ trim (Record.highlightMd r) = [].
Proof.
  split; [vm_compute; reflexivity|]. split; [vm_compute; reflexivity|].
  eexists. split; [vm_compute; reflexivity|]. split; reflexivity.
Qed.

(** *** C2 and C3: what a record is made of *)

Section RecordFacts.

Variable turndown : jsstring -> list (jsstring * rule) -> options -> jsstring.
Variable contents : gmap jsstring Content.t.

Lemma imapM_cons {A B} (f : nat -> A -> result B) (i : nat) (x : A)
    (l : list A) :
  imapM f i (x :: l) = y ← f i x; k ← imapM f (S i) l; mret (y :: k).
Proof. reflexivity. Qed.

Lemma imapM_resolveSpan (hs : list Highlight.t) (parts : list jsstring) :
  forall i out,
    imapM (resolveSpan hs) i parts = inr out ->
    out = zip_with highlightPart parts (drop i hs)
    /\ (length parts <= length (drop i hs))%nat.
Proof.
  induction parts as [|part parts IH]; intros i out H.
  - injection H as <-. split; [reflexivity | simpl; lia].
  - rewrite imapM_cons in H.
    destruct (hs !! i) as [h|] eqn:Hi.
    + assert (Hr : resolveSpan hs i part = inr (highlightPart part h))
        by (unfold resolveSpan; now rewrite Hi).
      rewrite Hr in H. simpl in H.
      destruct (imapM (resolveSpan hs) (S i) parts) as [e|k] eqn:Hk;
        [discriminate|].
      simpl in H. injection H as <-.
      destruct (IH _ _ Hk) as [-> Hlen].
      rewrite (drop_S _ _ _ Hi). split; [reflexivity | simpl; lia].
    + assert (Hr : resolveSpan hs i part = inl TypeError)
        by (unfold resolveSpan; now rewrite Hi).
      rewrite Hr in H. discriminate.
Qed.

Lemma lookup_found (uris : list jsstring) :
  forall cs,
    mapM (lookupContents contents) uris = inr cs ->
    Forall2 (fun uri c => contents !! uri = Some c) uris cs.
Proof.
  induction uris as [|v uris IH]; intros cs H.
  - injection H as <-. constructor.
  - rewrite mapM_result_cons in H.
    destruct (contents !! v) as [c|] eqn:Hv.
    + assert (Hl : lookupContents contents v = inr c)
        by (unfold lookupContents; now rewrite Hv).
      rewrite Hl in H. simpl in H.
      destruct (mapM (lookupContents contents) uris) as [e|k]; [discriminate|].
      simpl in H. injection H as <-. constructor; [exact Hv | now apply IH].
    + assert (Hl : lookupContents contents v = inl (MissingContents v))
        by (unfold lookupContents; now rewrite Hv).
      rewrite Hl in H. discriminate.
Qed.

Lemma highlightText_zip (parts : list jsstring) (hs : list Highlight.t) :
  map trim (map withoutPlaceholders (zip_with highlightPart parts hs))
  = zip_with highlightText parts hs.
Proof.
  revert hs. induction parts as [|p parts IH]; intros [|h hs]; simpl;
    try reflexivity.
  now rewrite IH.
Qed.

Lemma convertedBlocks_single (cs : list Content.t) (blocks : list Block.t) :
  Forall2 (fun c b => Content.content c = [b]) cs blocks ->
  convertedBlocks turndown cs
  = map (fun b => htmlToMarkdownWithPlaceholders turndown (Block.markup b)) blocks.
Proof.
  unfold convertedBlocks. induction 1 as [|c b cs blocks Hc _ IH]; simpl.
  - reflexivity.
  - rewrite Hc. simpl. now rewrite IH.
Qed.

(** The parts of a record that [assemble] returns. *)
Lemma assemble_inversion (a : Annotation.t) (r : Record.t) :
  assemble turndown contents a = inr r ->
  exists cs,
    mapM (lookupContents contents) (getContentUrisForAnnotation a) = inr cs
    /\ Record.source r = (fun c => getSourceInfo a c) <$> head cs
    /\ Record.highlightMd r
       = join blankLine
           (zip_with highlightText (convertedBlocks turndown cs)
              (default [] (Annotation.highlights a)))
    /\ (length (convertedBlocks turndown cs)
        <= length (default [] (Annotation.highlights a)))%nat.
Proof.
  unfold assemble. intros H.
  destruct (Annotation.annotationId a) as [[|x s]|]; try discriminate.
  simpl in H.
  destruct (mapM (lookupContents contents) (getContentUrisForAnnotation a))
    as [e|cs] eqn:Hcs; [discriminate|].
  simpl in H.
  destruct (imapM (resolveSpan (default [] (Annotation.highlights a))) 0
              (convertedBlocks turndown cs)) as [e|out] eqn:Hout;
    [discriminate|].
  simpl in H. injection H as <-.
  destruct (imapM_resolveSpan _ _ _ _ Hout) as [-> Hlen].
  exists cs. simpl. rewrite drop_0 in Hlen. rewrite drop_0, highlightText_zip.
  repeat split. exact Hlen.
Qed.

End RecordFacts.

Lemma find_spec {A} (pred : A -> bool) (table : list A) :
  match find pred table with
  | Some s =>
      exists before after,
        table = before ++ s :: after
        /\ pred s = true
        /\ Forall (fun x => pred x = false) before
  | None => Forall (fun x => pred x = false) table
  end.
Proof.
  induction table as [|x table IH]; simpl; [constructor|].
  destruct (pred x) eqn:Hx.
  - exists [], table. repeat split; [exact Hx | constructor].
  - destruct (find pred table) as [s|].
    + destruct IH as (before & after & -> & Hs & Hbefore).
      exists (x :: before), after. repeat split; [exact Hs|].
      now constructor.
    + now constructor.
Qed.

Lemma getSourceInfo_spec (a : Annotation.t) (c : Content.t) :
  firstPrefixMatch (uriToUrl (Annotation.uri a)) knownSources (getSourceInfo a c)
  \/ (noPrefixMatch (uriToUrl (Annotation.uri a)) knownSources
      /\ getSourceInfo a c = synthesizedCitation (uriToUrl (Annotation.uri a)) c).
Proof.
  unfold getSourceInfo, firstPrefixMatch, noPrefixMatch.
  pose proof (find_spec
                (fun s => startsWith (uriToUrl (Annotation.uri a)) (Source.url s))
                knownSources) as H.
  destruct (find _ knownSources) as [s|].
  - left. exact H.
  - right. split; [exact H|]. unfold synthesizedCitation.
    now destruct (Content.authorName c) as [[|x s]|].
Qed.

(** A record, its fragments and its spans. *)
Lemma spans_pair_with_blocks_aux
    (turndown : jsstring -> list (jsstring * rule) -> options -> jsstring)
    (contents : gmap jsstring Content.t) (a : Annotation.t) (r : Record.t) :
  assemble turndown contents a = inr r ->
  exists cs,
    Forall2 (fun h c => contents !! Highlight.uri h = Some c)
            (default [] (Annotation.highlights a)) cs
    /\ Record.source r = (fun c => getSourceInfo a c) <$> head cs
    /\ Record.highlightMd r
       = join blankLine
           (zip_with highlightText (convertedBlocks turndown cs)
              (default [] (Annotation.highlights a)))
    /\ (length (convertedBlocks turndown cs)
        <= length (default [] (Annotation.highlights a)))%nat.
Proof.
  intros H.
  destruct (assemble_inversion _ _ _ _ H) as (cs & Hcs & Hsrc & Hmd & Hlen).
  apply lookup_found in Hcs.
  exists cs. repeat split; try assumption.
  unfold getContentUrisForAnnotation in Hcs.
  destruct (Annotation.highlights a) as [hs|]; simpl.
  - now apply Forall2_fmap_l in Hcs.
  - inversion Hcs. constructor.
Qed.

(** *** C2 *)

(** Span [i] is resolved against the [i]-th converted block of the blocks
    of all fetched fragments taken together, fragment [i] being the one
    fetched for the URI of span [i]; when every fetched fragment holds
    exactly one markup block, that block is the converted text of fragment
    [i], and spans and fragments pair one to one. *)
Theorem spans_pair_with_flattened_blocks
    (turndown : jsstring -> list (jsstring * rule) -> options -> jsstring)
    (contents : gmap jsstring Content.t) (a : Annotation.t) (r : Record.t) :
  assemble turndown contents a = inr r ->
  exists cs,
    Forall2 (fun h c => contents !! Highlight.uri h = Some c)
            (default [] (Annotation.highlights a)) cs
    /\ Record.highlightMd r
       = join blankLine
           (zip_with highlightText (convertedBlocks turndown cs)
              (default [] (Annotation.highlights a)))
    /\ (length (convertedBlocks turndown cs)
        <= length (default [] (Annotation.highlights a)))%nat
    /\ (forall blocks,
          Forall2 (fun c b => Content.content c = [b]) cs blocks ->
          length blocks = length (default [] (Annotation.highlights a))
          /\ Record.highlightMd r
             = join blankLine
                 (zip_with
                    (fun b h =>
                       highlightText
                         (htmlToMarkdownWithPlaceholders turndown (Block.markup b)) h)
                    blocks (default [] (Annotation.highlights a)))).
Proof.
  intros H.
  destruct (spans_pair_with_blocks_aux turndown contents a r H)
    as (cs & Hpair & _ & Hmd & Hlen).
  exists cs. split; [exact Hpair|]. split; [exact Hmd|]. split; [exact Hlen|].
  intros blocks Hsingle. split.
  - apply Forall2_length in Hpair. apply Forall2_length in Hsingle. lia.
  - rewrite Hmd, (convertedBlocks_single _ _ _ Hsingle).
    now rewrite zip_with_fmap_l.
Qed.

Lemma flat_map_content_length (cs : list Content.t) :
  Forall (fun c => Content.content c <> []) cs ->
  (length cs <= length (flat_map Content.content cs))%nat.
Proof.
  induction 1 as [|c cs Hc _ IH]; simpl; [lia|].
  rewrite length_app. destruct (Content.content c); [contradiction|].
  simpl. lia.
Qed.

Lemma one_block_each (cs : list Content.t) :
  Forall (fun c => Content.content c <> []) cs ->
  (length (flat_map Content.content cs) <= length cs)%nat ->
  exists blocks, Forall2 (fun c b => Content.content c = [b]) cs blocks.
Proof.
  induction 1 as [|c cs Hc Hcs IH]; intros Hlen.
  - exists []. constructor.
  - simpl in Hlen. rewrite length_app in Hlen.
    pose proof (flat_map_content_length cs Hcs) as Hge.
    destruct (Content.content c) as [|b [|b' bs]] eqn:Hb;
      [contradiction | | simpl in Hlen; lia].
    destruct IH as [blocks Hblocks]; [simpl in Hlen; lia|].
    exists (b :: blocks). now constructor.
Qed.

Lemma texts_by_fragment
    (turndown : jsstring -> list (jsstring * rule) -> options -> jsstring)
    (contents : gmap jsstring Content.t) (hs : list Highlight.t)
    (cs : list Content.t) :
  Forall2 (fun h c => contents !! Highlight.uri h = Some c) hs cs ->
  forall blocks,
    Forall2 (fun c b => Content.content c = [b]) cs blocks ->
    Forall2 (fun h text =>
               exists c part,
                 contents !! Highlight.uri h = Some c
                 /\ part ∈ convertedBlocks turndown [c]
                 /\ text = highlightText part h)
            hs
            (zip_with highlightText
               (map (fun b => htmlToMarkdownWithPlaceholders turndown
                                (Block.markup b)) blocks) hs).
Proof.
  induction 1 as [|h c hs cs Hc _ IH]; intros blocks Hblocks.
  - inversion Hblocks; subst. constructor.
  - inversion Hblocks as [|c' b cs' blocks' Hb Hrest]; subst. simpl.
    constructor; [|now apply IH].
    exists c, (htmlToMarkdownWithPlaceholders turndown (Block.markup b)).
    split; [exact Hc|]. split; [|reflexivity].
    unfold convertedBlocks. simpl. rewrite Hb. simpl. apply list_elem_of_here.
Qed.

(** Where the annotation assembles and every fragment of the mapping holds
    one block or more, as the data model has it, span [i] is resolved
    against the converted text of the fragment fetched for URI [i]. *)
Lemma assembled_spans_pair_with_fragments
    (turndown : jsstring -> list (jsstring * rule) -> options -> jsstring)
    (contents : gmap jsstring Content.t) (a : Annotation.t) (r : Record.t) :
  (forall uri c, contents !! uri = Some c -> Content.content c <> []) ->
  assemble turndown contents a = inr r ->
  resolvedByFragment turndown contents a r.
Proof.
  intros Hdata H.
  destruct (spans_pair_with_blocks_aux turndown contents a r H)
    as (cs & Hpair & _ & Hmd & Hlen).
  assert (Hne : Forall (fun c => Content.content c <> []) cs).
  { clear Hmd Hlen. induction Hpair as [|h c hs cs Hc _ IH]; constructor;
      [exact (Hdata _ _ Hc) | exact IH]. }
  destruct (one_block_each cs Hne) as [blocks Hblocks].
  { unfold convertedBlocks in Hlen. rewrite !length_map in Hlen.
    apply Forall2_length in Hpair. lia. }
  exists (zip_with highlightText
            (map (fun b => htmlToMarkdownWithPlaceholders turndown
                             (Block.markup b)) blocks)
            (default [] (Annotation.highlights a))).
  split; [now apply (texts_by_fragment turndown contents _ cs)|].
  now rewrite Hmd, (convertedBlocks_single _ _ _ Hblocks).
Qed.

(** C2: span [i] should be resolved against the converted text of the
    fragment fetched for URI [i], whatever the number of markup blocks in
    each fragment.  The code pairs the spans with the blocks of all
    fragments taken together and reads [highlights[i]] for every block: a
    fragment with a second block leaves a block without a span, the read
    throws, and the annotation is dropped.  With two blocks under [/x] and
    one under [/y], the two spans of the annotation give no record. *)
Lemma multi_block_fragment_throws :
  getContentUrisForAnnotation twoSpanAnnotation = [js "/x"; js "/y"]
  /\ threeBlockContents !! js "/x" = Some (fragmentOf [js "alpha"; js "beta"])
  /\ threeBlockContents !! js "/y" = Some (fragmentOf [js "gamma"])
  /\ assemble plainTurndown threeBlockContents twoSpanAnnotation = inl TypeError
  /\ assembleHighlights plainTurndown threeBlockContents [twoSpanAnnotation] = [].
Proof. repeat split; vm_compute; reflexivity. Qed.

(** *** C3 *)

(** C3, as the code has it: the citation of an assembled annotation is
    resolved from the fragment fetched for its first highlight URI and from
    the URI of the annotation itself.  That URI is made absolute and matched
    by prefix against the table of known sources, whose first match is the
    citation; when no entry matches, the citation takes its author from the
    author name of the fragment or else from its publication name, its title
    from the headline, and the absolute URL as its URL. *)
Theorem citation_from_annotation_uri
    (turndown : jsstring -> list (jsstring * rule) -> options -> jsstring)
    (contents : gmap jsstring Content.t) (a : Annotation.t) (r : Record.t)
    (h : Highlight.t) (hs : list Highlight.t) :
  assemble turndown contents a = inr r ->
  Annotation.highlights a = Some (h :: hs) ->
  exists c s,
    contents !! Highlight.uri h = Some c
    /\ Record.source r = Some s
    /\ s = getSourceInfo a c
    /\ (firstPrefixMatch (uriToUrl (Annotation.uri a)) knownSources s
        \/ (noPrefixMatch (uriToUrl (Annotation.uri a)) knownSources
            /\ s = synthesizedCitation (uriToUrl (Annotation.uri a)) c)).
Proof.
  intros H Hhs.
  destruct (spans_pair_with_blocks_aux turndown contents a r H)
    as (cs & Hpair & Hsrc & _).
  rewrite Hhs in Hpair. simpl in Hpair.
  inversion Hpair as [|h' c hs' cs' Hc _]; subst.
  exists c, (getSourceInfo a c). repeat split; try assumption.
  apply getSourceInfo_spec.
Qed.

Lemma citation_from_annotation_uri_witness :
  assemble plainTurndown talkContents talkAnnotation = inr talkRecord
  /\ Annotation.highlights talkAnnotation = Some [talkSpan]
  /\ exists c s,
       talkContents !! Highlight.uri talkSpan = Some c
       /\ Record.source talkRecord = Some s
       /\ s = getSourceInfo talkAnnotation c.
Proof.
  assert (H : assemble plainTurndown talkContents talkAnnotation = inr talkRecord)
    by (vm_compute; reflexivity).
  assert (Hhs : Annotation.highlights talkAnnotation = Some [talkSpan])
    by reflexivity.
  split; [exact H|]. split; [exact Hhs|].
  destruct (citation_from_annotation_uri plainTurndown talkContents
              talkAnnotation talkRecord talkSpan [] H Hhs)
    as (c & s & Hc & Hsrc & Hs & _).
  exists c, s. split; [exact Hc|]. split; [exact Hsrc | exact Hs].
Defined.

(** C3 as stated fails when the URI of the annotation differs from its first
    highlight URI: the citation carries the URL of the former. *)
Lemma citation_ignores_first_highlight_uri :
  assemble plainTurndown talkContents talkAnnotation = inr talkRecord
  /\ head (getContentUrisForAnnotation talkAnnotation)
     = Some (js "/general-conference/talk.p1")
  /\ talkContents !! js "/general-conference/talk.p1" = Some talkFragment
  /\ Record.source talkRecord
     <> Some (citationOfFirstHighlightUri (js "/general-conference/talk.p1")
                talkFragment).
Proof.
  split; [vm_compute; reflexivity|]. split; [reflexivity|].
  split; [vm_compute; reflexivity|].
  vm_compute. intros H. discriminate H.
Qed.

(** *** C1: links *)

Lemma takeWhile_length (f : char -> bool) (s : jsstring) :
  (length (takeWhile f s) <= length s)%nat.
Proof. induction s as [|c s IH]; simpl; [lia|]. destruct (f c); simpl; lia. Qed.

Lemma dropWhile_length (f : char -> bool) (s : jsstring) :
  (length (dropWhile f s) <= length s)%nat.
Proof. induction s as [|c s IH]; simpl; [lia|]. destruct (f c); simpl; lia. Qed.

Lemma takeWhile_all (f : char -> bool) (s : jsstring) :
  takeWhile f s = s -> Forall (fun c => f c = true) s.
Proof.
  induction s as [|c s IH]; simpl; intros H; [constructor|].
  destruct (f c) eqn:Hc; [|discriminate].
  injection H as H. constructor; [exact Hc | now apply IH].
Qed.

(** A token is its own first match only when it consists of separator
    characters. *)
Lemma firstMatch_self (p : jsstring) :
  firstMatch p = Some p -> Forall (fun c => isSeparatorChar c = true) p.
Proof.
  unfold firstMatch. destruct p as [|c p]; simpl; [discriminate|].
  destruct (isSeparatorChar c) eqn:Hc; simpl.
  - intros H. simpl in H. rewrite ?Hc in H. injection H as H.
    constructor; [exact Hc | now apply takeWhile_all].
  - intros H. exfalso.
    pose proof (dropWhile_length (fun c => negb (isSeparatorChar c)) p) as Hd.
    destruct (dropWhile _ p) as [|x r]; [discriminate|].
    injection H as H. apply (f_equal (@length char)) in H.
    pose proof (takeWhile_length isSeparatorChar (x :: r)) as Ht.
    simpl in *. lia.
Qed.



Lemma startsWith_self (pat t : jsstring) : startsWith (pat ++ t) pat = true.
Proof. induction pat as [|a pat IH]; simpl; [reflexivity|]. now rewrite N.eqb_refl. Qed.











Lemma split_from_cons (inSep : bool) (cur : jsstring) (c : char)
    (s : jsstring) :
  split_from inSep cur (c :: s)
  = if isSeparatorChar c then
      if inSep then split_from true (c :: cur) s
      else rev cur :: split_from true [c] s
    else
      if inSep then rev cur :: split_from false [c] s
      else split_from false (c :: cur) s.
Proof. reflexivity. Qed.









(** ** Further properties of the code *)

(** *** The tokenizer *)

Lemma split_from_alternating (s : jsstring) :
  forall cur,
    (isWordToken (rev cur) -> alternating (split_from false cur s))
    /\ (isSeparatorToken (rev cur) ->
        match split_from true cur s with
        | sp :: rest => isSeparatorToken sp /\ alternating rest
        | [] => False
        end).
Proof.
  induction s as [|c s IH]; intros cur.
  - split; intros H; simpl.
    + split; [exact H | exact I].
    + split; [exact H|]. split; [constructor | exact I].
  - rewrite !split_from_cons.
    destruct (isSeparatorChar c) eqn:Hc; split; intros H.
    + split; [exact H|].
      assert (Hsep : isSeparatorToken (rev [c]))
        by (split; [discriminate | now repeat constructor]).
      pose proof (proj2 (IH [c]) Hsep) as Hrest.
      destruct (split_from true [c] s); [contradiction | exact Hrest].
    + apply (proj2 (IH (c :: cur))). destruct H as [_ H].
      split; [simpl; now destruct (rev cur) | simpl].
      apply Forall_app. split; [exact H | now repeat constructor].
    + apply (proj1 (IH (c :: cur))). simpl.
      apply Forall_app. split; [exact H | now repeat constructor].
    + split; [exact H|]. apply (proj1 (IH [c])). now repeat constructor.
Qed.

Lemma split_from_first_nonempty (s : jsstring) :
  forall inSep cur, cur <> [] ->
    match split_from inSep cur s with
    | p :: _ => p <> []
    | [] => False
    end.
Proof.
  assert (Hrev : forall l : jsstring, l <> [] -> rev l <> []).
  { intros l Hl Hr. apply Hl. apply (f_equal (@rev char)) in Hr.
    now rewrite rev_involutive in Hr. }
  induction s as [|c s IH]; intros inSep cur Hcur.
  - simpl. destruct inSep; now apply Hrev.
  - rewrite split_from_cons.
    destruct (isSeparatorChar c), inSep; try (now apply Hrev);
      now apply IH.
Qed.

Lemma split_from_nonempty_tokens (s : jsstring) :
  forall inSep cur, cur <> [] ->
    allButLastNonEmpty (split_from inSep cur s).
Proof.
  assert (Hrev : forall l : jsstring, l <> [] -> rev l <> []).
  { intros l Hl Hr. apply Hl. apply (f_equal (@rev char)) in Hr.
    now rewrite rev_involutive in Hr. }
  assert (Hcons : forall (p : jsstring) l, p <> [] -> allButLastNonEmpty l ->
                    allButLastNonEmpty (p :: l)).
  { intros p [|q l] Hp Hl; simpl; [exact I | now split]. }
  induction s as [|c s IH]; intros inSep cur Hcur.
  - simpl. destruct inSep; simpl; [|exact I]. split; [now apply Hrev | exact I].
  - rewrite split_from_cons.
    destruct (isSeparatorChar c), inSep;
      try (apply IH; discriminate);
      apply Hcons; try (now apply Hrev); apply IH; discriminate.
Qed.

(** X1: the tokens of [split] start and end with a word token and alternate
    between word tokens, which hold no separator character, and separator
    tokens, which are non-empty and hold separator characters only; and no
    token other than the first and the last is empty. *)
Theorem split_tokens_alternate (s : jsstring) :
  alternating (split s)
  /\ match split s with
     | _ :: rest => allButLastNonEmpty rest
     | [] => False
     end.
Proof.
  split.
  - apply (proj1 (split_from_alternating s [])). constructor.
  - unfold split. destruct s as [|c s]; [exact I|].
    rewrite split_from_cons. destruct (isSeparatorChar c).
    + apply split_from_nonempty_tokens. discriminate.
    + pose proof (split_from_nonempty_tokens s false [c]) as H.
      pose proof (split_from_first_nonempty s false [c]) as Hfirst.
      destruct (split_from false [c] s) as [|p rest];
        [apply Hfirst; discriminate|].
      assert (Hall : allButLastNonEmpty (p :: rest)) by (apply H; discriminate).
      simpl in Hall. destruct rest; [exact I | apply Hall].
Qed.

Lemma takeWhile_Forall (f : char -> bool) (s : jsstring) :
  Forall (fun c => f c = true) s -> takeWhile f s = s.
Proof.
  induction 1 as [|c s Hc _ IH]; simpl; [reflexivity|]. now rewrite Hc, IH.
Qed.

Lemma firstMatch_separator (p : jsstring) :
  isSeparatorToken p -> firstMatch p = Some p.
Proof.
  intros [Hne Hall]. unfold firstMatch.
  destruct p as [|c p]; [contradiction|].
  pose proof (Forall_inv Hall) as Hc. simpl in Hc. simpl. rewrite Hc. simpl.
  f_equal. change (takeWhile isSeparatorChar (c :: p) = c :: p).
  now apply takeWhile_Forall.
Qed.

(** X2: the test [p.match(SeparatorRegex)?.[0] !== p] of the resolver is
    exact: it fails on a token exactly when the token is non-empty and made
    of separator characters only.  The empty token passes it. *)
Theorem notSeparator_exact (p : jsstring) :
  notSeparator p = false <-> isSeparatorToken p.
Proof.
  unfold notSeparator. split.
  - intros H. apply negb_false_iff, bool_decide_eq_true in H.
    split; [|now apply firstMatch_self].
    intros ->. discriminate H.
  - intros H. apply negb_false_iff, bool_decide_eq_true.
    now apply firstMatch_separator.
Qed.

(** *** The resolver *)

(** X3: a text that begins with a separator character has the empty string
    as its first token, and the resolver counts that token as the first
    word: the offset 1 is reached after it alone. *)
Theorem leading_separator_counts_empty_word (c : char) (s : jsstring) :
  isSeparatorChar c = true ->
  head (split (c :: s)) = Some []
  /\ wordOffsetToIndex (split (c :: s)) (Finite 1) = 1%nat
  /\ counted (split (c :: s)) (Finite 1) = 1%nat.
Proof.
  intros Hc. unfold split, wordOffsetToIndex, counted.
  rewrite split_from_cons, Hc. simpl.
  repeat split; now destruct (split_from true [c] s).
Qed.

Lemma leading_separator_counts_empty_word_witness :
  isSeparatorChar 32 = true
  /\ head (split (32 :: js "word")) = Some []
  /\ wordOffsetToIndex (split (32 :: js "word")) (Finite 1) = 1%nat.
Proof.
  split; [reflexivity|].
  pose proof (leading_separator_counts_empty_word 32 (js "word") eq_refl)
    as (Hhead & Hidx & _).
  split; [exact Hhead | exact Hidx].
Defined.

Lemma loop_offset_cap (w : Z) (rest : list jsstring) :
  forall st,
    (Z.of_nat (offset (loop (Finite w) rest st))
     <= Z.max w (Z.of_nat (offset st)))%Z.
Proof.
  induction rest as [|p rest IH]; intros st; simpl; [lia|].
  destruct (Z.ltb_spec (Z.of_nat (offset st)) w) as [Hlt|Hge]; [|lia].
  specialize (IH (loopBody p st)).
  pose proof (loopBody_offset_le p st). lia.
Qed.

Lemma loop_stops_early (w : jsnumber) (rest : list jsstring) :
  forall st,
    (index (loop w rest st) < index st + length rest)%nat ->
    ltNumber (offset (loop w rest st)) w = false.
Proof.
  induction rest as [|p rest IH]; intros st H; simpl in *; [lia|].
  destruct (ltNumber (offset st) w) eqn:Hst; [|exact Hst].
  apply IH. rewrite loopBody_index. lia.
Qed.

(** X4: for an offset that is not negative the counter never passes the
    offset, and when the resolver stops before the end of the tokens the
    counter equals the offset: the index it returns is the one right after
    the token that made the count; in all cases the index is at most the
    number of tokens. *)
Theorem resolver_counts_up_to_offset (parts : list jsstring) (w : Z) :
  (0 <= w)%Z ->
  (Z.of_nat (counted parts (Finite w)) <= w)%Z
  /\ ((wordOffsetToIndex parts (Finite w) < length parts)%nat ->
      Z.of_nat (counted parts (Finite w)) = w)
  /\ (wordOffsetToIndex parts (Finite w) <= length parts)%nat.
Proof.
  intros Hw. unfold counted, wordOffsetToIndex.
  pose proof (loop_offset_cap w parts initialState) as Hcap. simpl in Hcap.
  split; [lia|]. split.
  - intros Hearly.
    pose proof (loop_stops_early (Finite w) parts initialState Hearly) as Hstop.
    simpl in Hstop. apply Z.ltb_ge in Hstop. lia.
  - pose proof (loop_index_bounds (Finite w) parts initialState) as Hb.
    simpl in Hb. lia.
Qed.

Lemma resolver_counts_up_to_offset_witness :
  (0 <= 2)%Z
  /\ (wordOffsetToIndex (split (js "one two three")) (Finite 2)
      < length (split (js "one two three")))%nat
  /\ Z.of_nat (counted (split (js "one two three")) (Finite 2)) = 2%Z.
Proof.
  assert (Hw : (0 <= 2)%Z) by lia.
  assert (Hearly : (wordOffsetToIndex (split (js "one two three")) (Finite 2)
                    < length (split (js "one two three")))%nat)
    by (vm_compute; lia).
  split; [exact Hw|]. split; [exact Hearly|].
  exact (proj1 (proj2 (resolver_counts_up_to_offset
                         (split (js "one two three")) 2 Hw)) Hearly).
Defined.

Lemma loopBody_counts (p : jsstring) (st : loopState) :
  offset (loopBody p st) <> offset st -> notSeparator p = true.
Proof.
  unfold loopBody. simpl.
  destruct (inLink st), (notSeparator p); simpl; congruence.
Qed.

Lemma loop_no_progress (w : jsnumber) (rest : list jsstring) (st : loopState) :
  index (loop w rest st) = index st -> rest <> [] ->
  ltNumber (offset st) w = false.
Proof.
  destruct rest as [|p rest]; [congruence|]. intros H _. simpl in H.
  destruct (ltNumber (offset st) w); [|reflexivity].
  pose proof (loop_index_bounds w rest (loopBody p st)) as Hb.
  rewrite loopBody_index in Hb. lia.
Qed.

Lemma loop_cons (w : jsnumber) (p : jsstring) (rest : list jsstring)
    (st : loopState) :
  loop w (p :: rest) st
  = if ltNumber (offset st) w then loop w rest (loopBody p st) else st.
Proof. reflexivity. Qed.

Lemma loop_last_token_counted (w : jsnumber) (rest : list jsstring) :
  forall st,
    (index st < index (loop w rest st) < index st + length rest)%nat ->
    exists p,
      rest !! (index (loop w rest st) - index st - 1)%nat = Some p
      /\ notSeparator p = true.
Proof.
  induction rest as [|p rest IH]; intros st H; [simpl in H; lia|].
  rewrite loop_cons in *.
  destruct (ltNumber (offset st) w) eqn:Hst; [|lia].
  pose proof (loop_index_bounds w rest (loopBody p st)) as Hb.
  rewrite loopBody_index in Hb. simpl length in H.
  destruct (decide (index (loop w rest (loopBody p st)) = S (index st)))
    as [Heq|Hne].
  - exists p. rewrite Heq.
    replace (S (index st) - index st - 1)%nat with 0%nat by lia.
    split; [reflexivity|].
    apply (loopBody_counts p st). intros Hsame.
    assert (Hstop : ltNumber (offset (loopBody p st)) w = false).
    { apply (loop_no_progress w rest).
      - now rewrite loopBody_index.
      - intros ->. simpl in H. lia. }
    rewrite Hsame in Hstop. congruence.
  - destruct (IH (loopBody p st)) as (q & Hq & Hcount).
    { rewrite loopBody_index. lia. }
    exists q. split; [|exact Hcount].
    rewrite loopBody_index in Hq.
    replace (index (loop w rest (loopBody p st)) - index st - 1)%nat
      with (S (index (loop w rest (loopBody p st)) - S (index st) - 1))
      by lia.
    exact Hq.
Qed.

(** X5: when the resolver stops strictly inside the token sequence, the
    token just before the index it returns passes the separator test: a
    slice that ends before the end of the tokens never ends with a
    separator token. *)
Theorem resolved_index_follows_a_word (parts : list jsstring) (w : jsnumber)
    (i : nat) :
  wordOffsetToIndex parts w = S i ->
  (S i < length parts)%nat ->
  exists p, parts !! i = Some p /\ notSeparator p = true.
Proof.
  unfold wordOffsetToIndex. intros Hi Hlen.
  destruct (loop_last_token_counted w parts initialState) as (p & Hp & Hcount).
  { simpl. lia. }
  exists p. split; [|exact Hcount].
  rewrite Hi in Hp. simpl in Hp.
  now replace (i - 0)%nat with i in Hp by lia.
Qed.

Lemma resolved_index_follows_a_word_witness :
  wordOffsetToIndex (split (js "one - two three")) (Finite 2) = 3%nat
  /\ (3 < length (split (js "one - two three")))%nat
  /\ exists p, split (js "one - two three") !! 2%nat = Some p
               /\ notSeparator p = true.
Proof.
  assert (Hi : wordOffsetToIndex (split (js "one - two three")) (Finite 2) = 3%nat)
    by (vm_compute; reflexivity).
  assert (Hlen : (3 < length (split (js "one - two three")))%nat)
    by (vm_compute; lia).
  split; [exact Hi|]. split; [exact Hlen|].
  exact (resolved_index_follows_a_word _ (Finite 2) 2 Hi Hlen).
Defined.

(** X6: the resolved index grows with the offset, and the unbounded offset
    resolves at least as far as any other. *)
Theorem resolved_index_is_monotone (parts : list jsstring) (e s : Z)
    (w : jsnumber) :
  (e <= s)%Z ->
  (wordOffsetToIndex parts (Finite e) <= wordOffsetToIndex parts (Finite s))%nat
  /\ (wordOffsetToIndex parts w <= wordOffsetToIndex parts PosInfinity)%nat.
Proof.
  intros H. split.
  - apply loop_index_mono. intros n Hn. simpl in *.
    apply Z.ltb_lt in Hn. apply Z.ltb_lt. lia.
  - apply loop_index_mono. reflexivity.
Qed.

Lemma resolved_index_is_monotone_witness :
  (1 <= 3)%Z
  /\ (wordOffsetToIndex (split (js "one two three")) (Finite 1)
      <= wordOffsetToIndex (split (js "one two three")) (Finite 3))%nat.
Proof.
  assert (H : (1 <= 3)%Z) by lia.
  split; [exact H|].
  exact (proj1 (resolved_index_is_monotone (split (js "one two three"))
                  1 3 NaN H)).
Defined.

(** X7: an offset that is zero, negative or not a number resolves to index
    0 and counts nothing, whatever the tokens. *)
Theorem resolver_ignores_nonpositive_offset (parts : list jsstring)
    (w : jsnumber) :
  w = NaN \/ (exists z, w = Finite z /\ (z <= 0)%Z) ->
  wordOffsetToIndex parts w = 0%nat /\ counted parts w = 0%nat.
Proof.
  intros H. unfold wordOffsetToIndex, counted.
  rewrite loop_stop; [split; reflexivity|].
  destruct H as [->|(z & -> & Hz)]; simpl; [reflexivity|].
  apply Z.ltb_ge. lia.
Qed.

Lemma resolver_ignores_nonpositive_offset_witness :
  (Finite (-3) = NaN \/ (exists z, Finite (-3) = Finite z /\ (z <= 0)%Z))
  /\ wordOffsetToIndex (split (js "one two")) (Finite (-3)) = 0%nat.
Proof.
  assert (H : Finite (-3) = NaN \/ (exists z, Finite (-3) = Finite z /\ (z <= 0)%Z))
    by (right; exists (-3)%Z; split; [reflexivity | lia]).
  split; [exact H|].
  exact (proj1 (resolver_ignores_nonpositive_offset (split (js "one two"))
                  (Finite (-3)) H)).
Defined.

(** *** The slice of a span *)

Lemma slice_decompose {A} (from to : nat) (l : list A) :
  l = take from l ++ slice from to l ++ drop (to - from) (drop from l).
Proof.
  unfold slice. now rewrite take_drop, take_drop.
Qed.

(** X8: the slice that a span selects is a contiguous piece of the converted
    block: the block is the text of the tokens before the start index, then
    the slice, then the text of the remaining tokens. *)
Theorem highlightPart_is_contiguous (part : jsstring) (h : Highlight.t) :
  part
  = join [] (take (wordOffsetToIndex (split part) (startWordOffset h))
               (split part))
    ++ highlightPart part h
    ++ join [] (drop (wordOffsetToIndex (split part) (endWordOffset h)
                      - wordOffsetToIndex (split part) (startWordOffset h))
                  (drop (wordOffsetToIndex (split part) (startWordOffset h))
                     (split part))).
Proof.
  unfold highlightPart. rewrite !join_empty_concat, <- !concat_app.
  rewrite <- slice_decompose, <- join_empty_concat. symmetry. apply join_split.
Qed.

(** X9: a start offset of 1 or less (0, or the -1 that the source comment
    mentions) selects from the beginning of the block: the slice is the text
    of the tokens before the end index. *)
Theorem start_offset_at_most_one (part : jsstring) (h : Highlight.t) (s : Z) :
  Highlight.startOffset h = Some s -> (s <= 1)%Z ->
  highlightPart part h
  = join [] (take (wordOffsetToIndex (split part) (endWordOffset h))
               (split part)).
Proof.
  intros Hs Hle. unfold highlightPart, startWordOffset. rewrite Hs.
  replace (Z.max (s - 1) 0) with 0%Z by lia.
  unfold wordOffsetToIndex at 1. rewrite loop_stop by reflexivity. simpl.
  unfold slice. now rewrite Nat.sub_0_r, drop_0.
Qed.

Lemma start_offset_at_most_one_witness :
  let h := {| Highlight.uri := js "/x";
              Highlight.startOffset := Some (-1)%Z;
              Highlight.endOffset := Some 2%Z |} in
  Highlight.startOffset h = Some (-1)%Z /\ (-1 <= 1)%Z
  /\ highlightPart (js "one two three") h = js "one two".
Proof.
  assert (Hle : (-1 <= 1)%Z) by lia.
  split; [reflexivity|]. split; [exact Hle|].
  rewrite (start_offset_at_most_one (js "one two three")
             {| Highlight.uri := js "/x";
                Highlight.startOffset := Some (-1)%Z;
                Highlight.endOffset := Some 2%Z |} (-1) eq_refl Hle).
  vm_compute. reflexivity.
Defined.

(** X10: a span whose end offset is absent, zero or negative other than the
    sentinel -1 selects nothing: its highlighted text is empty. *)
Theorem end_offset_absent_or_nonpositive (part : jsstring) (h : Highlight.t) :
  Highlight.endOffset h = None
  \/ (exists e, Highlight.endOffset h = Some e /\ (e <= 0)%Z /\ e <> (-1)%Z) ->
  highlightPart part h = [] /\ highlightText part h = [].
Proof.
  intros H.
  assert (Hend : wordOffsetToIndex (split part) (endWordOffset h) = 0%nat).
  { unfold wordOffsetToIndex. rewrite loop_stop; [reflexivity|].
    unfold endWordOffset.
    destruct H as [->|(e & -> & He & Hne)]; [reflexivity|].
    destruct (Z.eqb_spec e (-1)); [contradiction|]. simpl.
    apply Z.ltb_ge. lia. }
  unfold highlightText, highlightPart. rewrite Hend.
  rewrite slice_empty by lia. split; reflexivity.
Qed.

Lemma end_offset_absent_or_nonpositive_witness :
  let h := {| Highlight.uri := js "/x";
              Highlight.startOffset := Some 1%Z;
              Highlight.endOffset := None |} in
  (Highlight.endOffset h = None
   \/ (exists e, Highlight.endOffset h = Some e /\ (e <= 0)%Z /\ e <> (-1)%Z))
  /\ highlightText (js "one two three") h = [].
Proof.
  assert (H : Highlight.endOffset
                {| Highlight.uri := js "/x";
                   Highlight.startOffset := Some 1%Z;
                   Highlight.endOffset := None |} = None
              \/ (exists e, Highlight.endOffset
                              {| Highlight.uri := js "/x";
                                 Highlight.startOffset := Some 1%Z;
                                 Highlight.endOffset := None |} = Some e
                            /\ (e <= 0)%Z /\ e <> (-1)%Z))
    by (left; reflexivity).
  split; [exact H|].
  exact (proj2 (end_offset_absent_or_nonpositive (js "one two three") _ H)).
Defined.

(** *** Placeholder stripping *)

Lemma list_ind2 {A} (P : list A -> Prop) :
  P [] -> (forall x, P [x]) ->
  (forall x y s, P s -> P (y :: s) -> P (x :: y :: s)) ->
  forall s, P s.
Proof.
  intros Hnil Hone Hstep s.
  assert (H : P s /\ forall x, P (x :: s)).
  { induction s as [|y s [IHs IHc]]; [split; [exact Hnil | exact Hone]|].
    split; [apply IHc|]. intros x. apply Hstep; [exact IHs | apply IHc]. }
  exact (proj1 H).
Qed.

Lemma removeAll2_cons2 (a b x y : char) (s : jsstring) :
  removeAll2 a b (x :: y :: s)
  = if (x =? a) && (y =? b) then removeAll2 a b s
    else x :: removeAll2 a b (y :: s).
Proof. reflexivity. Qed.

Lemma removeAll2_cons_ne (a b x : char) (s : jsstring) :
  x <> a -> removeAll2 a b (x :: s) = x :: removeAll2 a b s.
Proof.
  intros Hx. destruct s as [|y s]; [reflexivity|].
  rewrite removeAll2_cons2.
  now replace (x =? a) with false by (symmetry; now apply N.eqb_neq).
Qed.

Lemma includes_pair_cons (a b x : char) (s : jsstring) :
  includes (x :: s) [a; b]
  = (a =? x) && startsWith s [b] || includes s [a; b].
Proof. reflexivity. Qed.

Lemma startsWith_one (b : char) (s : jsstring) :
  startsWith s [b] = match s with y :: _ => b =? y | [] => false end.
Proof. destruct s; simpl; [reflexivity | apply andb_true_r]. Qed.

(** A text that holds no occurrence of the pattern is left as it is. *)
Lemma removeAll2_absent (a b : char) (s : jsstring) :
  includes s [a; b] = false -> removeAll2 a b s = s.
Proof.
  induction s as [| x | x y s IHs IHc] using list_ind2; intros H;
    try reflexivity.
  rewrite includes_pair_cons, startsWith_one in H.
  apply orb_false_iff in H as [Hhere Hrest].
  rewrite removeAll2_cons2, (N.eqb_sym x a), (N.eqb_sym y b), Hhere.
  now rewrite (IHc Hrest).
Qed.

Lemma removeAll2_app (a b : char) (s t : jsstring) :
  head t <> Some b ->
  removeAll2 a b (s ++ t) = removeAll2 a b s ++ removeAll2 a b t.
Proof.
  intros Ht.
  induction s as [| x | x y s IHs IHc] using list_ind2.
  - reflexivity.
  - destruct t as [|y t]; [reflexivity|]. simpl app.
    rewrite removeAll2_cons2.
    replace (y =? b) with false
      by (symmetry; apply N.eqb_neq; intros ->; now apply Ht).
    now rewrite andb_false_r.
  - simpl app. rewrite !removeAll2_cons2.
    destruct ((x =? a) && (y =? b)); [exact IHs|].
    simpl app in IHc. now rewrite IHc.
Qed.

(** X11: a text that holds neither glyph is returned as it is; and wrapping
    any text in the separator glyph, as the link rule does, leaves its
    stripped text unchanged, while the output of the footnote rule strips to
    the empty string. *)
Theorem withoutPlaceholders_removes_the_wrapping (md content : jsstring)
    (n : node) :
  (includes md foot = false -> includes md galaxy = false ->
   withoutPlaceholders md = md)
  /\ withoutPlaceholders (galaxy ++ md ++ galaxy) = withoutPlaceholders md
  /\ (exists link,
        replacement addFakeWordSeparatorAfterLinks content n
        = galaxy ++ link ++ galaxy)
  /\ withoutPlaceholders (replacement noSups content n) = [].
Proof.
  split; [|split; [|split]].
  - intros Hfoot Hgalaxy. unfold withoutPlaceholders.
    rewrite (removeAll2_absent _ _ md Hfoot).
    exact (removeAll2_absent _ _ md Hgalaxy).
  - unfold withoutPlaceholders, galaxy.
    change ([0xD83C; 0xDF0C] ++ md ++ [0xD83C; 0xDF0C])
      with (0xD83C :: 0xDF0C :: md ++ [0xD83C; 0xDF0C]).
    rewrite (removeAll2_cons_ne 0xD83E 0xDDB6 0xD83C) by discriminate.
    rewrite (removeAll2_cons_ne 0xD83E 0xDDB6 0xDF0C) by discriminate.
    rewrite (removeAll2_app 0xD83E 0xDDB6 md) by discriminate.
    change (removeAll2 0xD83E 0xDDB6 [0xD83C; 0xDF0C]) with [0xD83C; 0xDF0C].
    rewrite removeAll2_cons2. simpl andb. cbv iota.
    rewrite removeAll2_app by discriminate.
    change (removeAll2 0xD83C 0xDF0C [0xD83C; 0xDF0C]) with (@nil char).
    apply app_nil_r.
  - eexists. reflexivity.
  - reflexivity.
Qed.

Lemma high_not_low (c : char) :
  isHighSurrogate c = true -> isLowSurrogate c = false.
Proof.
  unfold isHighSurrogate, isLowSurrogate. intros H.
  apply andb_true_iff in H as [_ H]. apply N.leb_le in H.
  apply andb_false_iff. left. apply N.leb_gt. lia.
Qed.

Lemma wellFormed_unit (x : char) (t : jsstring) :
  isHighSurrogate x = false ->
  wellFormed (x :: t) = negb (isLowSurrogate x) && wellFormed t.
Proof. intros H. simpl. now rewrite H. Qed.

Lemma wellFormed_pair (x y : char) (s : jsstring) :
  isHighSurrogate x = true ->
  wellFormed (x :: y :: s) = isLowSurrogate y && wellFormed s.
Proof. intros H. simpl. now rewrite H. Qed.

Lemma removeAll2_wellFormed (a b a' b' : char) :
  isHighSurrogate a = true -> isHighSurrogate a' = true ->
  forall s,
    wellFormed s = true ->
    wellFormed (removeAll2 a b s) = true
    /\ includes (removeAll2 a b s) [a; b] = false
    /\ (includes s [a'; b'] = false ->
        includes (removeAll2 a b s) [a'; b'] = false).
Proof.
  intros Ha Ha'.
  assert (Hne : forall h x : char, isHighSurrogate h = true ->
                  isHighSurrogate x = false -> (h =? x) = false).
  { intros h x Hh Hx. apply N.eqb_neq. intros ->. congruence. }
  induction s as [| x | x y s IHs IHc] using list_ind2; intros Hwf.
  - repeat split.
  - simpl in Hwf. destruct (isHighSurrogate x) eqn:Hx; [discriminate|].
    simpl. rewrite Hx, (Hne a x Ha Hx), (Hne a' x Ha' Hx).
    repeat split; assumption.
  - change (wellFormed (x :: y :: s))
      with (if isHighSurrogate x then isLowSurrogate y && wellFormed s
            else negb (isLowSurrogate x) && wellFormed (y :: s)) in Hwf.
    destruct (isHighSurrogate x) eqn:Hx.
    + apply andb_true_iff in Hwf as [Hy Hs].
      destruct (IHs Hs) as (Hwf' & Hown & Hother).
      assert (Hyh : isHighSurrogate y = false).
      { destruct (isHighSurrogate y) eqn:E; [|reflexivity].
        apply high_not_low in E. congruence. }
      rewrite removeAll2_cons2.
      destruct ((x =? a) && (y =? b)) eqn:Hhit.
      * split; [exact Hwf'|]. split; [exact Hown|].
        intros H. apply Hother.
        rewrite !includes_pair_cons in H.
        now apply orb_false_iff in H as [_ H%orb_false_iff].
      * rewrite (removeAll2_cons_ne a b y)
          by (intros ->; congruence).
        split; [|split].
        -- now rewrite (wellFormed_pair _ _ _ Hx), Hy, Hwf'.
        -- rewrite !includes_pair_cons, Hown, (Hne a y Ha Hyh).
           rewrite startsWith_one, (N.eqb_sym a x), (N.eqb_sym b y), Hhit.
           reflexivity.
        -- intros H. rewrite !includes_pair_cons in H.
           apply orb_false_iff in H as [Hhere H].
           apply orb_false_iff in H as [_ H].
           rewrite !includes_pair_cons, (Hother H), (Hne a' y Ha' Hyh).
           rewrite startsWith_one in *. now rewrite Hhere.
    + apply andb_true_iff in Hwf as [Hxl Hrest].
      destruct (IHc Hrest) as (Hwf' & Hown & Hother).
      rewrite (removeAll2_cons_ne a b x) by (intros ->; congruence).
      split; [|split].
      * now rewrite (wellFormed_unit _ _ Hx), Hxl, Hwf'.
      * now rewrite includes_pair_cons, Hown, (Hne a x Ha Hx).
      * intros H. rewrite includes_pair_cons in H.
        apply orb_false_iff in H as [_ H].
        now rewrite includes_pair_cons, (Hother H), (Hne a' x Ha' Hx).
Qed.

(** X12: on a text whose surrogates come in pairs, stripping leaves no
    placeholder glyph and no separator glyph, keeps the surrogates paired,
    and stripping again changes nothing. *)
Theorem withoutPlaceholders_on_wellFormed (md : jsstring) :
  wellFormed md = true ->
  includes (withoutPlaceholders md) foot = false
  /\ includes (withoutPlaceholders md) galaxy = false
  /\ wellFormed (withoutPlaceholders md) = true
  /\ withoutPlaceholders (withoutPlaceholders md) = withoutPlaceholders md.
Proof.
  intros Hwf. unfold withoutPlaceholders, foot, galaxy.
  destruct (removeAll2_wellFormed 0xD83E 0xDDB6 0xD83E 0xDDB6
              eq_refl eq_refl md Hwf) as (Hwf1 & Hfoot1 & _).
  destruct (removeAll2_wellFormed 0xD83C 0xDF0C 0xD83E 0xDDB6
              eq_refl eq_refl _ Hwf1) as (Hwf2 & Hgalaxy & Hfoot2).
  specialize (Hfoot2 Hfoot1).
  repeat split; try assumption.
  rewrite (removeAll2_absent _ _ _ Hfoot2).
  exact (removeAll2_absent _ _ _ Hgalaxy).
Qed.

Lemma withoutPlaceholders_on_wellFormed_witness :
  let md := js "see " ++ galaxy ++ foot ++ galaxy ++ js " here" in
  wellFormed md = true
  /\ includes (withoutPlaceholders md) foot = false
  /\ includes (withoutPlaceholders md) galaxy = false.
Proof.
  assert (Hwf : wellFormed (js "see " ++ galaxy ++ foot ++ galaxy ++ js " here")
                = true) by (vm_compute; reflexivity).
  split; [exact Hwf|].
  destruct (withoutPlaceholders_on_wellFormed _ Hwf) as (Hfoot & Hgalaxy & _).
  split; [exact Hfoot | exact Hgalaxy].
Defined.

(** Without the pairing the second pass can meet a glyph that the first one
    put together: stripping is not idempotent on every string. *)
Example withoutPlaceholders_not_idempotent :
  withoutPlaceholders [0xD83C; 0xD83C; 0xDF0C; 0xDF0C] = galaxy
  /\ withoutPlaceholders galaxy = [].
Proof. split; reflexivity. Qed.

(** *** Trimming *)

Lemma takeWhile_dropWhile (f : char -> bool) (s : jsstring) :
  s = takeWhile f s ++ dropWhile f s.
Proof.
  induction s as [|c s IH]; simpl; [reflexivity|].
  destruct (f c); simpl; [now rewrite <- IH | reflexivity].
Qed.

Lemma takeWhile_holds (f : char -> bool) (s : jsstring) :
  Forall (fun c => f c = true) (takeWhile f s).
Proof.
  induction s as [|c s IH]; simpl; [constructor|].
  destruct (f c) eqn:Hc; now constructor.
Qed.

Lemma head_dropWhile (f : char -> bool) (s : jsstring) (c : char) :
  head (dropWhile f s) = Some c -> f c = false.
Proof.
  induction s as [|x s IH]; simpl; [discriminate|].
  destruct (f x) eqn:Hx; [exact IH|]. simpl. intros H. congruence.
Qed.

Lemma last_rev (l : jsstring) : last (rev l) = head l.
Proof. destruct l as [|x l]; [reflexivity|]. simpl. apply last_snoc. Qed.

Lemma head_rev (l : jsstring) : head (rev l) = last l.
Proof. rewrite <- (rev_involutive l) at 2. symmetry. apply last_rev. Qed.

Lemma last_dropWhile (f : char -> bool) (s : jsstring) :
  dropWhile f s <> [] -> last (dropWhile f s) = last s.
Proof.
  induction s as [|x s IH]; simpl; [congruence|].
  destruct (f x); [|reflexivity].
  intros H. rewrite (IH H). destruct s; [now simpl in H | reflexivity].
Qed.

Lemma trim_spec (s : jsstring) :
  (exists before after,
     s = before ++ trim s ++ after
     /\ Forall (fun c => isWhiteSpace c = true) before
     /\ Forall (fun c => isWhiteSpace c = true) after)
  /\ (forall c, head (trim s) = Some c -> isWhiteSpace c = false)
  /\ (forall c, last (trim s) = Some c -> isWhiteSpace c = false).
Proof.
  unfold trim. set (t := dropWhile isWhiteSpace s).
  split; [|split].
  - exists (takeWhile isWhiteSpace s),
           (rev (takeWhile isWhiteSpace (rev t))).
    split; [|split].
    + rewrite <- rev_app_distr, <- takeWhile_dropWhile, rev_involutive.
      apply takeWhile_dropWhile.
    + apply takeWhile_holds.
    + apply Forall_forall. intros c Hc.
      apply list_elem_of_In, in_rev, list_elem_of_In in Hc.
      pose proof (takeWhile_holds isWhiteSpace (rev t)) as Hall.
      rewrite Forall_forall in Hall. now apply Hall.
  - intros c. rewrite head_rev. intros Hc.
    destruct (dropWhile isWhiteSpace (rev t)) as [|x d] eqn:Hd;
      [discriminate|].
    rewrite <- Hd, last_dropWhile, last_rev in Hc by (rewrite Hd; discriminate).
    exact (head_dropWhile isWhiteSpace s c Hc).
  - intros c. rewrite last_rev. apply head_dropWhile.
Qed.

(** X13: the highlighted text of a block is the stripped slice with white
    space removed at both ends and nowhere else, and it neither begins nor
    ends with a white-space character. *)
Theorem highlightText_is_trimmed (part : jsstring) (h : Highlight.t) :
  (exists before after,
     withoutPlaceholders (highlightPart part h)
     = before ++ highlightText part h ++ after
     /\ Forall (fun c => isWhiteSpace c = true) before
     /\ Forall (fun c => isWhiteSpace c = true) after)
  /\ (forall c, head (highlightText part h) = Some c -> isWhiteSpace c = false)
  /\ (forall c, last (highlightText part h) = Some c -> isWhiteSpace c = false).
Proof. apply trim_spec. Qed.

(** *** Notes *)

Lemma lastLineFeed_bounds (run : jsstring) :
  forall j k, lastLineFeed j run = Some k ->
    (1 <= k)%nat /\ (j <= k < j + length run)%nat.
Proof.
  induction run as [|c run IH]; intros j k H; simpl in H; [discriminate|].
  destruct (lastLineFeed (S j) run) as [i|] eqn:Hi.
  - injection H as <-. destruct (IH _ _ Hi). simpl. lia.
  - destruct (c =? 10); simpl in H; [|discriminate].
    destruct j as [|j]; [discriminate|].
    injection H as <-. simpl. lia.
Qed.

Lemma lastLineFeed_snoc (w : jsstring) :
  forall j, (1 <= j + length w)%nat ->
    lastLineFeed j (w ++ [lineFeed]) = Some (j + length w)%nat.
Proof.
  induction w as [|c w IH]; intros j Hj.
  - destruct j as [|j]; [simpl in Hj; lia|]. simpl. f_equal. lia.
  - simpl in *. rewrite IH by lia. f_equal. lia.
Qed.

Lemma collapseBlankLines_skip (u b : jsstring) :
  collapseBlankLines (length u) (u ++ b) = collapseBlankLines 0 b.
Proof. induction u as [|c u IH]; [reflexivity | exact IH]. Qed.

Lemma collapseBlankLines_text (a : jsstring) :
  lineFeed ∉ a -> forall b,
    collapseBlankLines 0 (a ++ b) = a ++ collapseBlankLines 0 b.
Proof.
  induction a as [|c a IH]; intros Ha b; [reflexivity|].
  apply not_elem_of_cons in Ha as [Hc Ha]. simpl.
  replace (c =? 10) with false by (symmetry; now apply N.eqb_neq).
  now rewrite IH.
Qed.

Lemma takeWhile_app_stop (f : char -> bool) (u b : jsstring) :
  Forall (fun c => f c = true) u ->
  (forall c, head b = Some c -> f c = false) ->
  takeWhile f (u ++ b) = u.
Proof.
  intros Hu Hb. induction Hu as [|c u Hc _ IH]; simpl.
  - destruct b as [|c b]; [reflexivity|]. simpl. now rewrite (Hb c eq_refl).
  - now rewrite Hc, IH.
Qed.

Lemma collapseBlankLines_length (s : jsstring) :
  forall skip,
    (length (collapseBlankLines skip s) <= length s - skip)%nat.
Proof.
  induction s as [|c s IH]; intros skip; simpl; [lia|].
  destruct skip as [|k]; [|apply IH].
  destruct (c =? 10).
  - destruct (lastLineFeed 0 (takeWhile isWhiteSpace s)) as [k|] eqn:Hk.
    + destruct (lastLineFeed_bounds _ _ _ Hk) as [H1 H2].
      pose proof (takeWhile_length isWhiteSpace s).
      specialize (IH (S k)). simpl. lia.
    + specialize (IH 0%nat). simpl. lia.
  - specialize (IH 0%nat). simpl. lia.
Qed.

(** X14: the replacement of [/\n\s+\n/g] in a converted note collapses a run
    of white space between two line feeds to one blank line: when [a] holds
    no line feed, [w] is a non-empty run of white space and [b] does not
    begin with white space, [a \n w \n b] becomes [a \n \n] followed by the
    replacement in [b]. *)
Theorem collapseBlankLines_collapses (a w b : jsstring) :
  lineFeed ∉ a ->
  w <> [] -> Forall (fun c => isWhiteSpace c = true) w ->
  (forall c, head b = Some c -> isWhiteSpace c = false) ->
  collapseBlankLines 0 (a ++ [lineFeed] ++ w ++ [lineFeed] ++ b)
  = a ++ [lineFeed; lineFeed] ++ collapseBlankLines 0 b.
Proof.
  intros Ha Hne Hw Hb. rewrite (collapseBlankLines_text a Ha). f_equal.
  change (collapseBlankLines 0 ([lineFeed] ++ w ++ [lineFeed] ++ b))
    with (match lastLineFeed 0 (takeWhile isWhiteSpace (w ++ [lineFeed] ++ b)) with
          | Some k => [10; 10] ++ collapseBlankLines (S k) (w ++ [lineFeed] ++ b)
          | None => lineFeed :: collapseBlankLines 0 (w ++ [lineFeed] ++ b)
          end).
  rewrite (app_assoc w [lineFeed] b).
  rewrite (takeWhile_app_stop isWhiteSpace (w ++ [lineFeed]) b);
    [| apply Forall_app; split; [exact Hw | now repeat constructor] | exact Hb].
  rewrite lastLineFeed_snoc by (destruct w; [contradiction | simpl; lia]).
  simpl Nat.add.
  replace (S (length w)) with (length (w ++ [lineFeed]))
    by (rewrite length_app; simpl; lia).
  now rewrite collapseBlankLines_skip.
Qed.

Lemma collapseBlankLines_collapses_witness :
  (lineFeed ∉ js "first")
  /\ js "  " <> []
  /\ Forall (fun c => isWhiteSpace c = true) (js "  ")
  /\ (forall c, head (js "second") = Some c -> isWhiteSpace c = false)
  /\ collapseBlankLines 0
       (js "first" ++ [lineFeed] ++ js "  " ++ [lineFeed] ++ js "second")
     = js "first" ++ [lineFeed; lineFeed] ++ js "second".
Proof.
  assert (Ha : lineFeed ∉ js "first")
    by (apply (bool_decide_unpack _); vm_compute; exact I).
  assert (Hne : js "  " <> []) by discriminate.
  assert (Hw : Forall (fun c => isWhiteSpace c = true) (js "  "))
    by (repeat constructor).
  assert (Hb : forall c, head (js "second") = Some c -> isWhiteSpace c = false)
    by (intros c Hc; injection Hc as <-; reflexivity).
  split; [exact Ha|]. split; [exact Hne|]. split; [exact Hw|].
  split; [exact Hb|].
  rewrite (collapseBlankLines_collapses (js "first") (js "  ") (js "second")
             Ha Hne Hw Hb).
  reflexivity.
Defined.

(** X15: the replacement never makes a note longer, and a note with no line
    feed in it is returned as the converter wrote it. *)
Theorem noteToMarkdown_never_grows
    (turndown : jsstring -> list (jsstring * rule) -> options -> jsstring)
    (noteHtml : jsstring) :
  (length (noteToMarkdown turndown noteHtml)
   <= length (turndown noteHtml [] asterisks))%nat
  /\ (lineFeed ∉ turndown noteHtml [] asterisks ->
      noteToMarkdown turndown noteHtml = turndown noteHtml [] asterisks).
Proof.
  unfold noteToMarkdown. split.
  - pose proof (collapseBlankLines_length (turndown noteHtml [] asterisks) 0).
    lia.
  - intros H.
    pose proof (collapseBlankLines_text _ H []) as Ht.
    now rewrite !app_nil_r in Ht.
Qed.

(** *** The source resolver *)

Lemma startsWith_refl (s : jsstring) : startsWith s s = true.
Proof.
  pose proof (startsWith_self s []) as H. now rewrite app_nil_r in H.
Qed.

(** Two prefixes of one text: one of them is a prefix of the other. *)
Lemma startsWith_both (u p1 p2 : jsstring) :
  startsWith u p1 = true -> startsWith u p2 = true ->
  startsWith p1 p2 = true \/ startsWith p2 p1 = true.
Proof.
  revert u p2. induction p1 as [|a p1 IH]; intros u p2 H1 H2.
  - right. reflexivity.
  - destruct p2 as [|b p2]; [left; reflexivity|].
    destruct u as [|c u]; [discriminate|]. simpl in H1, H2.
    apply andb_true_iff in H1 as [Ha H1]. apply andb_true_iff in H2 as [Hb H2].
    apply N.eqb_eq in Ha, Hb. subst a b. simpl. rewrite N.eqb_refl. simpl.
    exact (IH u p2 H1 H2).
Qed.

Lemma knownSources_unrelated (s1 s2 : Source.t) :
  s1 ∈ knownSources -> s2 ∈ knownSources ->
  startsWith (Source.url s1) (Source.url s2) = true
  \/ startsWith (Source.url s2) (Source.url s1) = true ->
  s1 = s2.
Proof.
  unfold knownSources. intros H1 H2 H.
  repeat (apply elem_of_cons in H1 as [->|H1]);
    try (now apply elem_of_nil in H1);
    repeat (apply elem_of_cons in H2 as [->|H2]);
    try (now apply elem_of_nil in H2);
    try reflexivity;
    exfalso; vm_compute in H; destruct H; discriminate.
Qed.

Lemma find_elem_of {A} (pred : A -> bool) (table : list A) (s : A) :
  find pred table = Some s -> s ∈ table /\ pred s = true.
Proof.
  induction table as [|x table IH]; simpl; [discriminate|].
  destruct (pred x) eqn:Hx.
  - intros H. injection H as <-. split; [apply list_elem_of_here | exact Hx].
  - intros H. destruct (IH H). split; [now apply list_elem_of_further | assumption].
Qed.

Lemma find_none {A} (pred : A -> bool) (table : list A) (s : A) :
  find pred table = None -> s ∈ table -> pred s = false.
Proof.
  induction table as [|x table IH]; simpl; intros H Hin.
  - now apply elem_of_nil in Hin.
  - destruct (pred x) eqn:Hx; [discriminate|].
    apply elem_of_cons in Hin as [->|Hin]; [exact Hx | now apply IH].
Qed.

(** X16: an annotation whose absolute URL begins with the URL of a known
    source gets that source as its citation, whatever the fragment and
    whatever the place of the source in the table: no URL begins with the
    URLs of two entries. *)
Theorem known_source_is_the_citation (a : Annotation.t) (c : Content.t)
    (s : Source.t) :
  s ∈ knownSources ->
  startsWith (uriToUrl (Annotation.uri a)) (Source.url s) = true ->
  getSourceInfo a c = s.
Proof.
  intros Hin Hs. unfold getSourceInfo.
  destruct (find _ knownSources) as [s'|] eqn:Hfind.
  - apply find_elem_of in Hfind as [Hin' Hs'].
    apply knownSources_unrelated; try assumption.
    exact (startsWith_both _ _ _ Hs' Hs).
  - pose proof (find_none _ _ s Hfind Hin) as Hnone. simpl in Hnone.
    congruence.
Qed.

Lemma known_source_is_the_citation_witness :
  let a := {| Annotation.annotationId := Some (js "a5");
              Annotation.highlights := None;
              Annotation.uri := Some (js "/scriptures/nt/john/3");
              Annotation.note := None;
              Annotation.tags := None;
              Annotation.created := None;
              Annotation.lastUpdated := None |} in
  let nt := {| Source.url := js "https://www.churchofjesuschrist.org/study/scriptures/nt";
               Source.title := Some (js "New Testament");
               Source.author := church;
               Source.type := Some (js "books") |} in
  nt ∈ knownSources
  /\ startsWith (uriToUrl (Annotation.uri a)) (Source.url nt) = true
  /\ getSourceInfo a talkFragment = nt.
Proof.
  cbv zeta.
  assert (Hin : {| Source.url := js "https://www.churchofjesuschrist.org/study/scriptures/nt";
                   Source.title := Some (js "New Testament");
                   Source.author := church;
                   Source.type := Some (js "books") |} ∈ knownSources)
    by (apply list_elem_of_further, list_elem_of_here).
  split; [exact Hin|]. split; [vm_compute; reflexivity|].
  apply (known_source_is_the_citation _ talkFragment _ Hin).
  vm_compute. reflexivity.
Defined.

(** X17: the URL of the citation is always a prefix of the absolute URL of
    the annotation; and when the annotation has no URI the absolute URL ends
    in the text [undefined], no known source matches, and the citation is
    the one synthesized from the fragment. *)
Theorem citation_url_is_a_prefix (a : Annotation.t) (c : Content.t) :
  startsWith (uriToUrl (Annotation.uri a)) (Source.url (getSourceInfo a c))
  = true
  /\ (Annotation.uri a = None ->
      getSourceInfo a c
      = synthesizedCitation
          (js "https://www.churchofjesuschrist.org/studyundefined") c).
Proof.
  split.
  - destruct (getSourceInfo_spec a c) as [(before & after & _ & H & _)|[_ ->]];
      [exact H | apply startsWith_refl].
  - intros Huri. unfold getSourceInfo, synthesizedCitation. rewrite Huri.
    change (uriToUrl None)
      with (js "https://www.churchofjesuschrist.org/studyundefined").
    replace (find _ knownSources) with (@None Source.t)
      by (vm_compute; reflexivity).
    now destruct (Content.authorName c) as [[|x s]|].
Qed.

(** *** The assembler *)

Lemma imapM_resolveSpan_enough (hs : list Highlight.t) (parts : list jsstring) :
  forall i, (length parts <= length (drop i hs))%nat ->
    imapM (resolveSpan hs) i parts
    = inr (zip_with highlightPart parts (drop i hs)).
Proof.
  induction parts as [|part parts IH]; intros i Hlen; [reflexivity|].
  rewrite imapM_cons.
  destruct (hs !! i) as [h|] eqn:Hi.
  - assert (Hr : resolveSpan hs i part = inr (highlightPart part h))
      by (unfold resolveSpan; now rewrite Hi).
    rewrite (drop_S _ _ _ Hi) in *. simpl in Hlen.
    rewrite Hr. simpl. rewrite IH by lia. reflexivity.
  - apply lookup_ge_None in Hi. rewrite drop_ge in Hlen by exact Hi.
    simpl in Hlen. lia.
Qed.

Lemma imapM_resolveSpan_short (hs : list Highlight.t) (parts : list jsstring) :
  forall i, (length (drop i hs) < length parts)%nat ->
    imapM (resolveSpan hs) i parts = inl TypeError.
Proof.
  induction parts as [|part parts IH]; intros i Hlen; [simpl in Hlen; lia|].
  rewrite imapM_cons.
  destruct (hs !! i) as [h|] eqn:Hi.
  - assert (Hr : resolveSpan hs i part = inr (highlightPart part h))
      by (unfold resolveSpan; now rewrite Hi).
    rewrite (drop_S _ _ _ Hi) in Hlen. simpl in Hlen.
    rewrite Hr. simpl. rewrite IH by lia. reflexivity.
  - assert (Hr : resolveSpan hs i part = inl TypeError)
      by (unfold resolveSpan; now rewrite Hi).
    now rewrite Hr.
Qed.

Lemma convertedBlocks_length
    (turndown : jsstring -> list (jsstring * rule) -> options -> jsstring)
    (cs : list Content.t) :
  length (convertedBlocks turndown cs) = length (flat_map Content.content cs).
Proof. unfold convertedBlocks. now rewrite !length_map. Qed.

Lemma assemble_after_lookup
    (turndown : jsstring -> list (jsstring * rule) -> options -> jsstring)
    (contents : gmap jsstring Content.t) (a : Annotation.t)
    (cs : list Content.t) :
  truthyOpt (Annotation.annotationId a) = true ->
  mapM (lookupContents contents) (getContentUrisForAnnotation a) = inr cs ->
  ((length (flat_map Content.content cs)
    <= length (default [] (Annotation.highlights a)))%nat ->
   exists r, assemble turndown contents a = inr r)
  /\ ((length (default [] (Annotation.highlights a))
       < length (flat_map Content.content cs))%nat ->
      assemble turndown contents a = inl TypeError).
Proof.
  intros Hid Hcs. unfold assemble.
  destruct (Annotation.annotationId a) as [[|x s]|]; try discriminate.
  simpl. rewrite Hcs. simpl. split; intros Hlen.
  - rewrite imapM_resolveSpan_enough
      by (rewrite drop_0, convertedBlocks_length; exact Hlen).
    simpl. eexists. reflexivity.
  - rewrite imapM_resolveSpan_short
      by (rewrite drop_0, convertedBlocks_length; exact Hlen).
    reflexivity.
Qed.

(** X18: once the identifier is present and every span URI has its
    fragment, the assembly succeeds when the fragments hold at most as many
    markup blocks as the annotation has spans, and throws a [TypeError],
    which drops the annotation, when they hold more. *)
Theorem assembly_needs_a_span_per_block
    (turndown : jsstring -> list (jsstring * rule) -> options -> jsstring)
    (contents : gmap jsstring Content.t) (a : Annotation.t)
    (cs : list Content.t) :
  truthyOpt (Annotation.annotationId a) = true ->
  mapM (lookupContents contents) (getContentUrisForAnnotation a) = inr cs ->
  ((length (flat_map Content.content cs)
    <= length (default [] (Annotation.highlights a)))%nat ->
   exists r, assemble turndown contents a = inr r)
  /\ ((length (default [] (Annotation.highlights a))
       < length (flat_map Content.content cs))%nat ->
      assemble turndown contents a = inl TypeError
      /\ assembleHighlights turndown contents [a] = []).
Proof.
  intros Hid Hcs.
  destruct (assemble_after_lookup turndown contents a cs Hid Hcs) as [Hok Herr].
  split; [exact Hok|]. intros Hlen. specialize (Herr Hlen).
  split; [exact Herr|].
  unfold assembleHighlights, tryAssemble. simpl. now rewrite Herr.
Qed.

Lemma assembly_needs_a_span_per_block_witness :
  truthyOpt (Annotation.annotationId twoSpanAnnotation) = true
  /\ mapM (lookupContents threeBlockContents)
       (getContentUrisForAnnotation twoSpanAnnotation)
     = inr [fragmentOf [js "alpha"; js "beta"]; fragmentOf [js "gamma"]]
  /\ assembleHighlights plainTurndown threeBlockContents [twoSpanAnnotation] = [].
Proof.
  assert (Hid : truthyOpt (Annotation.annotationId twoSpanAnnotation) = true)
    by reflexivity.
  assert (Hcs : mapM (lookupContents threeBlockContents)
                  (getContentUrisForAnnotation twoSpanAnnotation)
                = inr [fragmentOf [js "alpha"; js "beta"];
                       fragmentOf [js "gamma"]])
    by (vm_compute; reflexivity).
  split; [exact Hid|]. split; [exact Hcs|].
  refine (proj2 (proj2 (assembly_needs_a_span_per_block plainTurndown
                          threeBlockContents twoSpanAnnotation _ Hid Hcs) _)).
  simpl. lia.
Defined.

Lemma assembleHighlights_origin
    (turndown : jsstring -> list (jsstring * rule) -> options -> jsstring)
    (contents : gmap jsstring Content.t) (annotations : list Annotation.t)
    (h : option Record.t) :
  h ∈ assembleHighlights turndown contents annotations ->
  exists a r,
    h = Some r /\ a ∈ annotations
    /\ assemble turndown contents a = inr r
    /\ Annotation.annotationId a = Some (Record.id r).
Proof.
  unfold assembleHighlights. intros Hin.
  apply list_elem_of_In, List.filter_In in Hin as [Hin Hkeep].
  apply list_elem_of_In, list_elem_of_fmap in Hin as (a & Ha & Hin).
  destruct h as [r|]; [|discriminate].
  exists a, r. split; [reflexivity|]. split; [exact Hin|].
  unfold tryAssemble in Ha.
  destruct (assemble turndown contents a) as [e|r'] eqn:Hr; [discriminate|].
  injection Ha as ->. split; [reflexivity|].
  unfold assemble in Hr.
  destruct (Annotation.annotationId a) as [[|x s]|]; try discriminate.
  simpl in Hr.
  destruct (mapM _ _) as [e|cs]; [discriminate|]. simpl in Hr.
  destruct (imapM _ _ _) as [e|out]; [discriminate|]. simpl in Hr.
  injection Hr as <-. reflexivity.
Qed.

(** X19: the batch keeps the order of its input and treats the annotations
    one by one: the records of a concatenation are the records of the first
    list followed by those of the second, there are never more records than
    annotations, and every record is the one assembled from an annotation of
    the input, whose identifier it carries. *)
Theorem batch_is_elementwise
    (turndown : jsstring -> list (jsstring * rule) -> options -> jsstring)
    (contents : gmap jsstring Content.t) (l1 l2 : list Annotation.t) :
  assembleHighlights turndown contents (l1 ++ l2)
  = assembleHighlights turndown contents l1
    ++ assembleHighlights turndown contents l2
  /\ (length (assembleHighlights turndown contents l1) <= length l1)%nat
  /\ Forall (fun h =>
               exists a r,
                 h = Some r /\ a ∈ l1
                 /\ assemble turndown contents a = inr r
                 /\ Annotation.annotationId a = Some (Record.id r))
            (assembleHighlights turndown contents l1).
Proof.
  split; [|split].
  - unfold assembleHighlights. now rewrite map_app, List.filter_app.
  - unfold assembleHighlights.
    etransitivity; [apply List.filter_length_le | now rewrite length_map].
  - apply Forall_forall. intros h Hin.
    now apply (assembleHighlights_origin turndown contents l1).
Qed.

Lemma join_two_nonempty (sep : jsstring) (l : list jsstring) :
  sep <> [] -> (2 <= length l)%nat -> join sep l <> [].
Proof.
  intros Hsep Hlen. destruct l as [|x [|y l]]; simpl in Hlen; try lia.
  change (join sep (x :: y :: l)) with (x ++ sep ++ join sep (y :: l)).
  intros H. apply app_eq_nil in H as [_ H]. apply app_eq_nil in H as [H _].
  contradiction.
Qed.

(** X20: an annotation that assembles over two or more converted blocks is
    always emitted: the blank line that joins the texts of its blocks makes
    its highlighted text non-empty even when no span selects anything. *)
Theorem two_blocks_are_always_emitted
    (turndown : jsstring -> list (jsstring * rule) -> options -> jsstring)
    (contents : gmap jsstring Content.t) (a : Annotation.t) (r : Record.t)
    (cs : list Content.t) :
  assemble turndown contents a = inr r ->
  mapM (lookupContents contents) (getContentUrisForAnnotation a) = inr cs ->
  (2 <= length (flat_map Content.content cs))%nat ->
  Record.highlightMd r <> []
  /\ assembleHighlights turndown contents [a] = [Some r].
Proof.
  intros Hr Hcs Hlen.
  destruct (assemble_inversion _ _ _ _ Hr) as (cs' & Hcs' & _ & Hmd & Hspans).
  rewrite Hcs in Hcs'. injection Hcs' as <-.
  assert (Hne : Record.highlightMd r <> []).
  { rewrite Hmd. apply join_two_nonempty; [discriminate|].
    rewrite length_zip_with, convertedBlocks_length in *. lia. }
  split; [exact Hne|].
  unfold assembleHighlights, tryAssemble. simpl. rewrite Hr. simpl.
  now destruct (Record.highlightMd r).
Qed.

Lemma two_blocks_are_always_emitted_witness :
  exists r,
    assemble plainTurndown twoBlockContents emptySpansAnnotation = inr r
    /\ mapM (lookupContents twoBlockContents)
         (getContentUrisForAnnotation emptySpansAnnotation)
       = inr [fragmentOf [js "alpha"]; fragmentOf [js "gamma"]]
    /\ Record.highlightMd r = blankLine
    /\ assembleHighlights plainTurndown twoBlockContents [emptySpansAnnotation]
       = [Some r].
Proof.
  destruct (assemble plainTurndown twoBlockContents emptySpansAnnotation)
    as [e|r] eqn:Hr; [vm_compute in Hr; discriminate|].
  assert (Hcs : mapM (lookupContents twoBlockContents)
                  (getContentUrisForAnnotation emptySpansAnnotation)
                = inr [fragmentOf [js "alpha"]; fragmentOf [js "gamma"]])
    by (vm_compute; reflexivity).
  assert (Hlen : (2 <= length (flat_map Content.content
                                 [fragmentOf [js "alpha"];
                                  fragmentOf [js "gamma"]]))%nat)
    by (simpl; lia).
  exists r. split; [reflexivity|]. split; [exact Hcs|]. split.
  - pose proof Hr as Hr'. vm_compute in Hr'. injection Hr' as <-. reflexivity.
  - exact (proj2 (two_blocks_are_always_emitted plainTurndown twoBlockContents
                    emptySpansAnnotation r _ Hr Hcs Hlen)).
Defined.

(** *** Tokens of a rewritten element *)

Lemma split_from_before_galaxy (s : jsstring) :
  forall inSep cur c,
    last s = Some c -> isSeparatorChar c = false ->
    split_from inSep cur (s ++ galaxy)
    = split_from inSep cur s ++ [galaxy; []].
Proof.
  induction s as [|x s IH]; intros inSep cur c Hlast Hc; [discriminate|].
  destruct s as [|y s].
  - injection Hlast as ->. simpl. rewrite Hc. now destruct inSep.
  - change (last (x :: y :: s)) with (last (y :: s)) in Hlast.
    change ((x :: y :: s) ++ galaxy) with (x :: (y :: s) ++ galaxy).
    rewrite !split_from_cons.
    destruct (isSeparatorChar x), inSep;
      rewrite (IH _ _ c Hlast Hc); reflexivity.
Qed.

(** X21: the separator glyphs that the rules put around a rewritten element
    make it a run of tokens of its own: when the element begins and ends
    with characters that are no separators, as a Markdown link does, the
    tokens of the wrapped element are the empty token, the glyph, the tokens
    of the element, the glyph and the empty token. *)
Theorem wrapped_element_tokens (first last' : char) (middle : jsstring) :
  isSeparatorChar first = false -> isSeparatorChar last' = false ->
  split (galaxy ++ (first :: middle ++ [last']) ++ galaxy)
  = [[]; galaxy] ++ split (first :: middle ++ [last']) ++ [galaxy; []].
Proof.
  intros Hfirst Hlast. unfold split.
  change (galaxy ++ (first :: middle ++ [last']) ++ galaxy)
    with (0xD83C :: 0xDF0C :: (first :: middle ++ [last']) ++ galaxy).
  rewrite (split_from_cons false [] 0xD83C).
  change (isSeparatorChar 0xD83C) with true. cbv iota.
  rewrite (split_from_cons true [0xD83C] 0xDF0C).
  change (isSeparatorChar 0xDF0C) with true. cbv iota.
  change ((first :: middle ++ [last']) ++ galaxy)
    with (first :: (middle ++ [last']) ++ galaxy).
  rewrite (split_from_cons true), (split_from_cons false [] first), Hfirst.
  rewrite (split_from_before_galaxy (middle ++ [last']) false [first] last');
    [reflexivity | apply last_snoc | exact Hlast].
Qed.

Lemma wrapped_element_tokens_witness :
  isSeparatorChar 91 = false /\ isSeparatorChar 41 = false
  /\ split (galaxy ++ js "[a](b-c)" ++ galaxy)
     = [[]; galaxy] ++ split (js "[a](b-c)") ++ [galaxy; []].
Proof.
  split; [reflexivity|]. split; [reflexivity|].
  exact (wrapped_element_tokens 91 41 (js "a](b-c") eq_refl eq_refl).
Defined.

(** *** C1: the words of a link *)











(** A closing parenthesis in the visible text ends the link at its first
    token, and the tokens of the address are counted again. *)
Example link_text_with_parenthesis :
  wordCount (split (markdownLink (js "a)b") (js "u-v"))) = 2%nat.
Proof. vm_compute. reflexivity. Qed.
